(** * Noisy-channel spelling correction: a shallow embedding of
      [spelling_correction.py] and the properties of its specification.

    Python strings are sequences of Unicode code points; a character is the
    code point itself.  Dictionaries are finite maps, sets are finite sets.
    Operations of the Python runtime that the program calls but does not
    define (float arithmetic, [str.lower], the iteration order of a set, the
    CSV reader, [int]) are the fields of two interfaces, [PyRuntime] and
    [PyIO]; what the proofs assume of them is stated where it is used. *)

From Stdlib Require Import ZArith String Ascii.
From stdpp Require Import gmap list fin_maps fin_sets.

Local Open Scope Z_scope.

(** ** Strings *)

Abbreviation char := N (only parsing).
Abbreviation str := (list N) (only parsing).

(** The code point of an ASCII character, and the string of a literal. *)
Definition chr (a : ascii) : char := N_of_ascii a.

Fixpoint str_of (s : string) : str :=
  match s with
  | EmptyString => []
  | String a s' => chr a :: str_of s'
  end.

(** [len(s)] *)
Definition len (s : str) : Z := Z.of_nat (length s).

(** ** Exceptions *)

(** The exceptions the modelled code can meet.  [DataLoadError] is the name
    the specification gives to a failed construction. *)
Inductive exn : Type :=
| SystemExit (code : Z)
| FileNotFoundError
| OSError
| KeyError
| TypeError
| ValueError
| IndexError
| ZeroDivisionError
| OverflowError
| DataLoadError.

Inductive result (A : Type) : Type :=
| Ret (a : A)
| Raise (e : exn).
Arguments Ret {A} a.
Arguments Raise {A} e.

Global Instance result_bind : MBind result := fun A B k m =>
  match m with
  | Ret a => k a
  | Raise e => Raise e
  end.

(** [s[i]] for a Python string and an integer index: negative indices count
    from the end, an index out of range raises [IndexError]. *)
Definition getitem (s : str) (i : Z) : result char :=
  let j := if i <? 0 then i + len s else i in
  if (j <? 0) || (len s <=? j) then Raise IndexError
  else match s !! Z.to_nat j with
       | Some c => Ret c
       | None => Raise IndexError
       end.

(** [s[a:b]]: both bounds are normalised (a negative bound counts from the
    end) and clamped to [0, len(s)]. *)
Definition slice_bound (s : str) (i : Z) : Z :=
  if i <? 0 then Z.max 0 (i + len s) else Z.min i (len s).

Definition slice (s : str) (a b : Z) : str :=
  let lo := slice_bound s a in
  let hi := slice_bound s b in
  take (Z.to_nat (hi - lo)) (drop (Z.to_nat lo) s).

(** ** Dictionary keys and count tables *)

(** A value read from a CSV row is a string or [None]; a key of a count
    table is such a value (one key column) or a tuple of them. *)
Inductive pykey : Type :=
| KCell (c : option str)
| KTuple (cs : list (option str)).

Definition KStr (s : str) : pykey := KCell (Some s).
Definition KPair (a b : char) : pykey := KTuple [Some [a]; Some [b]].

Global Instance pykey_eq_dec : EqDecision pykey.
Proof. solve_decision. Defined.

Global Instance pykey_countable : Countable pykey.
Proof.
  apply (inj_countable'
    (fun k => match k with KCell c => inl c | KTuple cs => inr cs end)
    (fun x => match x with inl c => KCell c | inr cs => KTuple cs end)).
  intros []; reflexivity.
Defined.

(** [d.get(k, 0)] *)
Definition get0 (d : gmap pykey Z) (k : pykey) : Z := default 0 (d !! k).

(** [sum(d.values())] *)
Definition sum_values (d : gmap pykey Z) : Z :=
  foldr Z.add 0 ((map_to_list d).*2).

(** ** The corrector object *)

Record SpellingCorrector : Type := {
  alphabet : str;
  unigram_counts : gmap pykey Z;
  bigram_counts : gmap pykey Z;
  sub_counts : gmap pykey Z;
  del_counts : gmap pykey Z;
  add_counts : gmap pykey Z;
  vocab : gmap pykey Z;
  vocabulary : gset pykey;
  total_word_count : Z;
  total_unigram_count : Z;
  total_bigram_count : Z
}.

(** ['abcdefghijklmnopqrstuvwxyz'] *)
Definition ALPHABET : str := str_of "abcdefghijklmnopqrstuvwxyz".

(** The boundary marker ['#']. *)
Definition MARKER : char := chr "#".

(** ** Candidate generation *)

Section Candidates.
Variable self : SpellingCorrector.

(** [[(word[:i], word[i:]) for i in range(len(word) + 1)]] *)
Definition splits (word : str) : list (str * str) :=
  (fun i => (take i word, drop i word)) <$> seq 0 (length word + 1).

(** [[L + R[1:] for L, R in splits if R]] *)
Definition deletes (word : str) : list str :=
  '(L, R) ← splits word;
  match R with
  | [] => []
  | _ :: _ => [L ++ drop 1 R]
  end.

(** [[L + R[1] + R[0] + R[2:] for L, R in splits if len(R) > 1]] *)
Definition transposes (word : str) : list str :=
  '(L, R) ← splits word;
  match R with
  | r0 :: r1 :: _ => [L ++ [r1] ++ [r0] ++ drop 2 R]
  | _ => []
  end.

(** [[L + c + R[1:] for L, R in splits if R for c in self.alphabet]] *)
Definition replaces (word : str) : list str :=
  '(L, R) ← splits word;
  match R with
  | [] => []
  | _ :: _ => c ← alphabet self; [L ++ [c] ++ drop 1 R]
  end.

(** [[L + c + R for L, R in splits for c in self.alphabet]] *)
Definition inserts (word : str) : list str :=
  '(L, R) ← splits word;
  c ← alphabet self; [L ++ [c] ++ R].

Definition all_edits (word : str) : gset str :=
  list_to_set (deletes word ++ transposes word ++ replaces word ++ inserts word).

(** [{w for w in all_edits if w in self.vocabulary}] *)
Definition generate_candidates (word : str) : gset str :=
  filter (fun w => KStr w ∈ vocabulary self) (all_edits word).
End Candidates.

(** The edit relation of the specification: [x] is reached from [w] by one
    deletion, one adjacent transposition, one substitution by a letter of the
    alphabet, or one insertion of a letter of the alphabet. *)
Inductive one_edit (alpha : str) (w : str) : str -> Prop :=
| edit_delete L c R :
    w = L ++ c :: R -> one_edit alpha w (L ++ R)
| edit_transpose L a b R :
    w = L ++ a :: b :: R -> one_edit alpha w (L ++ b :: a :: R)
| edit_substitute L a c R :
    w = L ++ a :: R -> c ∈ alpha -> one_edit alpha w (L ++ c :: R)
| edit_insert L c R :
    w = L ++ R -> c ∈ alpha -> one_edit alpha w (L ++ c :: R).


(** ** The Python runtime *)

(** Float arithmetic and the other library operations the corrector calls.
    [float_div a b] is [a / b] on integers for a non-zero [b] (the division by
    zero is raised by [truediv] below); [math_log] is [math.log], which raises
    on a non-positive argument; [float_gt] is [>] on floats, as [max] uses it;
    [set_iter] is the order in which a set is iterated. *)
Class PyRuntime : Type := {
  float : Type;
  float_div : Z -> Z -> result float;
  math_log : float -> result float;
  float_add : float -> float -> float;
  neg_inf : float;
  float_gt : float -> float -> bool;
  str_lower : str -> str;
  set_iter : gset str -> list str
}.

(** [range(n)] *)
Definition range (n : Z) : list Z := Z.of_nat <$> seq 0 (Z.to_nat n).

(** A dictionary that remembers insertion order, and [d[k] = v] on it. *)
Fixpoint dict_set {V : Type} (d : list (str * V)) (k : str) (v : V) : list (str * V) :=
  match d with
  | [] => [(k, v)]
  | (k', v') :: d' =>
      if decide (k' = k) then (k', v) :: d' else (k', v') :: dict_set d' k v
  end.

Section Corrector.
Context {RT : PyRuntime}.
Variable self : SpellingCorrector.

(** [a / b] on integers. *)
Definition truediv (a b : Z) : result float :=
  if b =? 0 then Raise ZeroDivisionError else float_div a b.

(** [math.log(a / b)] *)
Definition log_ratio (a b : Z) : result float :=
  q ← truediv a b; math_log q.

Definition log_prior_prob (word : str) : result float :=
  let count := get0 (vocab self) (KStr word) in
  log_ratio (count + 1)
            (total_word_count self + Z.of_nat (size (vocabulary self))).

(** [i >= len(a) or typo[i] != candidate[i]], [a] being the shorter of the
    two strings. *)
Definition diverges (a typo candidate : str) (i : Z) : result bool :=
  if len a <=? i then Ret true
  else t ← getitem typo i; c ← getitem candidate i;
       Ret (negb (bool_decide (t = c))).

(** The body of the deletion loop at the index [i] of the divergence. *)
Definition deletion_prob (candidate : str) (i : Z) : result float :=
  prefix ← getitem candidate (i - 1);
  deleted_char ← getitem candidate i;
  let bigram := slice candidate (i - 1) (i + 1) in
  let del_count := get0 (del_counts self) (KPair prefix deleted_char) in
  let bigram_count :=
    if len bigram =? 2 then get0 (bigram_counts self) (KStr bigram)
    else get0 (unigram_counts self) (KStr [prefix]) in
  log_ratio (del_count + 1) (bigram_count + total_bigram_count self).

(** The body of the insertion loop at the index [i] of the divergence. *)
Definition insertion_prob (typo candidate : str) (i : Z) : result float :=
  prefix ← getitem candidate (i - 1);
  added_char ← getitem typo i;
  let add_count := get0 (add_counts self) (KPair prefix added_char) in
  let prefix_count :=
    if bool_decide (prefix ≠ MARKER) then get0 (unigram_counts self) (KStr [prefix])
    else total_word_count self in
  log_ratio (add_count + 1) (prefix_count + total_unigram_count self).

(** [for i in range(...)]: the first index at which the strings diverge
    returns from the function; when the loop ends without one, control
    reaches the final [return -float('inf')]. *)
Fixpoint deletion_loop (typo candidate : str) (idxs : list Z) : result float :=
  match idxs with
  | [] => Ret neg_inf
  | i :: idxs' =>
      b ← diverges typo typo candidate i;
      if b : bool then deletion_prob candidate i
      else deletion_loop typo candidate idxs'
  end.

Fixpoint insertion_loop (typo candidate : str) (idxs : list Z) : result float :=
  match idxs with
  | [] => Ret neg_inf
  | i :: idxs' =>
      b ← diverges candidate typo candidate i;
      if b : bool then insertion_prob typo candidate i
      else insertion_loop typo candidate idxs'
  end.

(** [[(i, typo[i], candidate[i]) for i in range(len(typo))
      if typo[i] != candidate[i]]] *)
Fixpoint diffs_of (typo candidate : str) (idxs : list Z)
  : result (list (Z * char * char)) :=
  match idxs with
  | [] => Ret []
  | i :: idxs' =>
      t ← getitem typo i; c ← getitem candidate i;
      rest ← diffs_of typo candidate idxs';
      Ret (if bool_decide (t = c) then rest else (i, t, c) :: rest)
  end.

Definition log_channel_prob (typo0 candidate0 : str) : result float :=
  let typo := MARKER :: typo0 in
  let candidate := MARKER :: candidate0 in
  if len typo <? len candidate then
    deletion_loop typo candidate (range (len candidate))
  else if len candidate <? len typo then
    insertion_loop typo candidate (range (len typo))
  else if len typo =? len candidate then
    diffs ← diffs_of typo candidate (range (len typo));
    match diffs with
    | [(i, typo_char, cand_char)] =>
        let sub_count := get0 (sub_counts self) (KPair cand_char typo_char) in
        let unigram_count := get0 (unigram_counts self) (KStr [cand_char]) in
        log_ratio (sub_count + 1) (unigram_count + total_unigram_count self)
    | [(i1, t1, c1); (i2, t2, c2)] =>
        if (i2 =? i1 + 1) && bool_decide (t1 = c2) && bool_decide (t2 = c1)
        then log_ratio 1 (total_word_count self)
        else Ret neg_inf
    | _ => Ret neg_inf
    end
  else Ret neg_inf.

(** The scoring loop of [correct]. *)
Fixpoint score_loop (word : str) (cands : list str)
    (scored : list (str * float)) : result (list (str * float)) :=
  match cands with
  | [] => Ret scored
  | cand :: cands' =>
      log_prior ← log_prior_prob cand;
      log_channel ← log_channel_prob word cand;
      score_loop word cands' (dict_set scored cand (float_add log_prior log_channel))
  end.

(** [max(d, key=d.get)]: the first key, in the order of the dictionary,
    whose value no later value exceeds. *)
Fixpoint max_loop (best : str) (best_key : float) (items : list (str * float)) : str :=
  match items with
  | [] => best
  | (k, v) :: items' =>
      if float_gt v best_key then max_loop k v items'
      else max_loop best best_key items'
  end.

Definition max_by_value (d : list (str * float)) : result str :=
  match d with
  | [] => Raise ValueError
  | (k, v) :: items => Ret (max_loop k v items)
  end.

Definition correct (original_word : str) : result str :=
  let word := str_lower original_word in
  if bool_decide (KStr word ∈ vocabulary self) then Ret word
  else
    let candidates := generate_candidates self word in
    if bool_decide (candidates = ∅) then Ret original_word
    else
      scored_candidates ← score_loop word (set_iter candidates) [];
      match scored_candidates with
      | [] => Ret original_word
      | _ :: _ => max_by_value scored_candidates
      end.
End Corrector.

(** ** Loading the tables *)

(** What iterating over an open file or a CSV reader yields: items, until the
    end of the data or until the read raises. *)
Inductive stream (A : Type) : Type :=
| SNil
| SCons (a : A) (s : stream A)
| SFail (e : exn).
Arguments SNil {A}.
Arguments SCons {A} a s.
Arguments SFail {A} e.

(** A row of [csv.DictReader]: column name to field, a missing field of a
    short row being [None]. *)
Abbreviation row := (gmap (list N) (option (list N))) (only parsing).

(** The library operations of the loader: the rows [csv.DictReader] yields
    for a file's text, the lines of a text, [line.strip().split()] and
    [int]. *)
Class PyIO : Type := {
  csv_DictReader : str -> stream row;
  iter_lines : str -> stream str;
  strip_split : str -> list str;
  py_int : option str -> result Z
}.

(** [open(path, 'r', encoding='utf-8')]: the text of the file, or the
    exception [open] raises ([FileNotFoundError] for a missing file). *)
Definition filesystem : Type := str -> result str.

Section Loading.
Context {IO : PyIO}.
Variable fs : filesystem.

(** [row[k]] *)
Definition row_get (r : row) (k : str) : result (option str) :=
  match r !! k with
  | Some v => Ret v
  | None => Raise KeyError
  end.

(** [tuple(row[k] for k in key_cols)] *)
Fixpoint key_tuple (r : row) (key_cols : list str) : result (list (option str)) :=
  match key_cols with
  | [] => Ret []
  | k :: ks => v ← row_get r k; vs ← key_tuple r ks; Ret (v :: vs)
  end.

(** The loop over the lines of the word-frequency file. *)
Fixpoint load_vocab_lines (lines : stream str) (counts : gmap pykey Z)
  : result (gmap pykey Z) :=
  match lines with
  | SNil => Ret counts
  | SFail e => Raise e
  | SCons line lines' =>
      match strip_split line with
      | [p0; p1] =>
          n ← py_int (Some p1);
          load_vocab_lines lines' (<[KStr p0 := n]> counts)
      | _ => load_vocab_lines lines' counts
      end
  end.

(** The loop over the rows of a CSV file. *)
Fixpoint load_csv_rows (key_cols : list str) (rows : stream row)
    (counts : gmap pykey Z) : result (gmap pykey Z) :=
  match rows with
  | SNil => Ret counts
  | SFail e => Raise e
  | SCons r rows' =>
      key ← key_tuple r key_cols;
      let key := match key with [c] => KCell c | _ => KTuple key end in
      field ← row_get r (str_of "count");
      n ← py_int field;
      load_csv_rows key_cols rows' (<[key := n]> counts)
  end.

(** [_load_counts]: a [FileNotFoundError] is caught, reported and turned
    into [exit(1)]; every other exception passes through. *)
Definition load_counts (path : str) (key_cols : list str) (is_vocab : bool)
  : result (gmap pykey Z) :=
  let body :=
    f ← fs path;
    if is_vocab then load_vocab_lines (iter_lines f) ∅
    else load_csv_rows key_cols (csv_DictReader f) ∅ in
  match body with
  | Raise FileNotFoundError => Raise (SystemExit 1)
  | r => r
  end.

(** [__init__] *)
Definition init (unigrams_path bigrams_path subs_path dels_path adds_path
                 vocab_path : str) : result SpellingCorrector :=
  unigrams ← load_counts unigrams_path [str_of "unigram"] false;
  bigrams ← load_counts bigrams_path [str_of "bigram"] false;
  subs ← load_counts subs_path [str_of "original"; str_of "substituted"] false;
  dels ← load_counts dels_path [str_of "prefix"; str_of "deleted"] false;
  adds ← load_counts adds_path [str_of "prefix"; str_of "added"] false;
  words ← load_counts vocab_path [str_of "word"] true;
  Ret {| alphabet := ALPHABET;
         unigram_counts := unigrams;
         bigram_counts := bigrams;
         sub_counts := subs;
         del_counts := dels;
         add_counts := adds;
         vocab := words;
         vocabulary := dom words;
         total_word_count := sum_values words;
         total_unigram_count := sum_values unigrams;
         total_bigram_count := sum_values bigrams |}.
End Loading.


(** ** Vocabulary of the specification *)

(** [d] is the first index at which [a] and [b] diverge: they agree below
    [d], and at [d] they hold different characters or one of them has ended. *)
Definition first_divergence (a b : str) (d : nat) : Prop :=
  (∀ j, (j < d)%nat -> a !! j = b !! j) ∧ a !! d ≠ b !! d.

(** [typo] and [cand] differ at the position [i] only, where [typo] holds [t]
    and [cand] holds [c]. *)
Definition one_substitution (typo cand : str) (i : nat) (t c : char) : Prop :=
  typo !! i = Some t ∧ cand !! i = Some c ∧ t ≠ c ∧
  ∀ j, j ≠ i -> typo !! j = cand !! j.

(** [typo] and [cand] differ at the adjacent positions [i] and [i + 1] only,
    and their characters there are swapped. *)
Definition one_transposition (typo cand : str) (i : nat) : Prop :=
  ∃ a b, a ≠ b ∧
    typo !! i = Some a ∧ typo !! S i = Some b ∧
    cand !! i = Some b ∧ cand !! S i = Some a ∧
    ∀ j, j ≠ i -> j ≠ S i -> typo !! j = cand !! j.

(** The positions at which two strings differ, counted from [k], with the
    characters found there: what the comprehension of the substitution branch
    collects. *)
Fixpoint mismatches (k : Z) (typo cand : str) : list (Z * char * char) :=
  match typo, cand with
  | t :: typo', c :: cand' =>
      if bool_decide (t = c) then mismatches (k + 1) typo' cand'
      else (k, t, c) :: mismatches (k + 1) typo' cand'
  | _, _ => []
  end.

(** The length of the longest common prefix. *)
Fixpoint common_prefix (a b : str) : nat :=
  match a, b with
  | x :: a', y :: b' => if bool_decide (x = y) then S (common_prefix a' b') else 0%nat
  | _, _ => 0%nat
  end.

(** Letters. *)
Definition is_lower_letter (c : char) : bool := ((97 <=? c) && (c <=? 122))%N.
Definition is_upper_letter (c : char) : bool := ((65 <=? c) && (c <=? 90))%N.
Definition is_ascii (c : char) : bool := (c <? 128)%N.

(** A lowercase alphabetic word: every character is one of [a] to [z]. *)
Definition lowercase_word (w : str) : Prop :=
  Forall (fun c => is_lower_letter c = true) w.

(** Case folding of one ASCII character. *)
Definition ascii_lower (c : char) : char :=
  if is_upper_letter c then (c + 32)%N else c.

(** What the proofs assume of [str.lower]: on a string of ASCII characters it
    folds the letters [A] to [Z] and leaves the rest; and no letter [A] to [Z]
    is left in its result, whatever the string. *)
Definition lower_ascii_law (RT : PyRuntime) : Prop :=
  ∀ s : str, Forall (fun c => is_ascii c = true) s -> str_lower s = ascii_lower <$> s.

Definition lower_no_upper_law (RT : PyRuntime) : Prop :=
  ∀ (s : str) (c : char), c ∈ str_lower s -> is_upper_letter c = false.

(** Counts are non-negative and small enough for the quotients of the
    corrector to be ordinary floats: a quotient of two positive integers up to
    [FLOAT_SAFE] is a positive finite double, of which [math.log] returns. *)
Definition COUNT_MAX : Z := 2 ^ 999.
Definition FLOAT_SAFE : Z := 2 ^ 1000.

Definition log_ratio_law (RT : PyRuntime) : Prop :=
  ∀ a b : Z, 0 < a <= FLOAT_SAFE -> 0 < b <= FLOAT_SAFE ->
    ∃ q r, float_div a b = Ret q ∧ math_log q = Ret r.

Definition table_ok (d : gmap pykey Z) : Prop :=
  ∀ k v, d !! k = Some v -> 0 <= v < COUNT_MAX.

Definition total_ok (n : Z) : Prop := 0 < n < COUNT_MAX.

Record corrector_ok (self : SpellingCorrector) : Prop := {
  ok_unigram : table_ok (unigram_counts self);
  ok_bigram : table_ok (bigram_counts self);
  ok_sub : table_ok (sub_counts self);
  ok_del : table_ok (del_counts self);
  ok_add : table_ok (add_counts self);
  ok_vocab : table_ok (vocab self);
  ok_size : Z.of_nat (size (vocabulary self)) < COUNT_MAX;
  ok_total_word : total_ok (total_word_count self);
  ok_total_unigram : total_ok (total_unigram_count self);
  ok_total_bigram : total_ok (total_bigram_count self)
}.

(** The context count of the deletion formula: the count of the bigram when
    the window holds two characters, the count of the prefix otherwise. *)
Definition deletion_context (self : SpellingCorrector) (window : str) (prefix : char) : Z :=
  if bool_decide (length window = 2%nat) then get0 (bigram_counts self) (KStr window)
  else get0 (unigram_counts self) (KStr [prefix]).

(** The context count of the insertion formula. *)
Definition insertion_context (self : SpellingCorrector) (prefix : char) : Z :=
  if bool_decide (prefix = MARKER) then total_word_count self
  else get0 (unigram_counts self) (KStr [prefix]).

(** What [_load_counts] raises when [open] raises [e]: a missing file ends
    the program with status 1, any other exception passes through. *)
Definition open_failure (e : exn) : exn :=
  match e with
  | FileNotFoundError => SystemExit 1
  | _ => e
  end.

(** ** A runtime to run the model on

    Exact arithmetic in place of doubles: a float is a quotient of integers,
    the logarithm of a positive quotient (sums of logarithms are logarithms of
    products), or minus infinity.  [str.lower] folds ASCII letters only, a
    set is iterated in the order of its elements, files are plain
    comma-separated text with decimal counts. *)
Module Demo.

Inductive xfloat : Type :=
| XQuot (a b : Z)
| XLog (n d : Z)
| XNegInf
| XNan.

Definition xdiv (a b : Z) : result xfloat := Ret (XQuot a b).

Definition xlog (x : xfloat) : result xfloat :=
  match x with
  | XQuot a b => if 0 <? a * b then Ret (XLog (Z.abs a) (Z.abs b)) else Raise ValueError
  | XNan => Ret XNan
  | _ => Raise ValueError
  end.

Definition xadd (x y : xfloat) : xfloat :=
  match x, y with
  | XLog a b, XLog c d => XLog (a * c) (b * d)
  | XQuot a b, XQuot c d => XQuot (a * d + c * b) (b * d)
  | XNegInf, (XNegInf | XLog _ _ | XQuot _ _) => XNegInf
  | (XLog _ _ | XQuot _ _), XNegInf => XNegInf
  | _, _ => XNan
  end.

Definition xgt (x y : xfloat) : bool :=
  match x, y with
  | XLog a b, XLog c d => c * b <? a * d
  | XLog _ _, XNegInf => true
  | _, _ => false
  end.

Global Instance runtime : PyRuntime := {|
  float := xfloat;
  float_div := xdiv;
  math_log := xlog;
  float_add := xadd;
  neg_inf := XNegInf;
  float_gt := xgt;
  str_lower := fmap ascii_lower;
  set_iter := elements
|}.

(** Text files. *)
Fixpoint split_on (sep : char -> bool) (s : str) : list str :=
  match s with
  | [] => [[]]
  | c :: s' =>
      if sep c then [] :: split_on sep s'
      else match split_on sep s' with
           | piece :: pieces => (c :: piece) :: pieces
           | [] => [[c]]
           end
  end.

Definition nonempty (s : str) : bool :=
  match s with [] => false | _ :: _ => true end.

Definition text_lines (t : str) : list str :=
  List.filter nonempty (split_on (N.eqb 10) t).

Definition words (line : str) : list str :=
  List.filter nonempty (split_on (fun c => N.eqb c 32 || N.eqb c 9 || N.eqb c 13) line).

Fixpoint digits (s : str) (acc : Z) : option Z :=
  match s with
  | [] => Some acc
  | c :: s' =>
      if ((48 <=? c) && (c <=? 57))%N then digits s' (10 * acc + Z.of_N (c - 48))
      else None
  end.

Definition parse_int (field : option str) : result Z :=
  match field with
  | None => Raise TypeError
  | Some [] => Raise ValueError
  | Some s =>
      match digits s 0 with
      | Some n => Ret n
      | None => Raise ValueError
      end
  end.

Fixpoint csv_row (header fields : list str) : list (str * option str) :=
  match header, fields with
  | [], _ => []
  | h :: hs, [] => (h, None) :: csv_row hs []
  | h :: hs, f :: fs => (h, Some f) :: csv_row hs fs
  end.

Fixpoint to_stream {A : Type} (l : list A) : stream A :=
  match l with
  | [] => SNil
  | a :: l' => SCons a (to_stream l')
  end.

Definition dict_reader (t : str) : stream row :=
  match text_lines t with
  | [] => SNil
  | header :: lines =>
      let names := split_on (N.eqb 44) header in
      to_stream ((fun l => list_to_map (reverse (csv_row names (split_on (N.eqb 44) l))))
                   <$> lines)
  end.

Global Instance io : PyIO := {|
  csv_DictReader := dict_reader;
  iter_lines := fun t => to_stream (text_lines t);
  strip_split := words;
  py_int := parse_int
|}.

Definition ln (s : string) : str := str_of s ++ [10%N].
Definition text (lines : list str) : str := concat lines.

Definition files : list (str * str) := [
  (str_of "data/unigrams.csv",
   text [ln "unigram,count"; ln "a,80"; ln "c,30"; ln "e,120"; ln "h,40"; ln "k,9"; ln "l,50";
         ln "o,70"; ln "p,25"; ln "s,60"; ln "w,15"]);
  (str_of "data/bigrams.csv",
   text [ln "bigram,count"; ln "ap,12"; ln "ea,30"; ln "el,20"; ln "ke,6"; ln "ll,15"; ln "pp,5"; ln "wh,8"]);
  (str_of "data/substitutions.csv",
   text [ln "original,substituted,count"; ln "o,e,10"; ln "a,e,4"]);
  (str_of "data/deletions.csv",
   text [ln "prefix,deleted,count"; ln "l,l,12"; ln "p,p,7"; ln "k,e,3"; ln "e,a,9"; ln "w,h,1"]);
  (str_of "data/additions.csv",
   text [ln "prefix,added,count"; ln "e,s,5"; ln "#,x,2"]);
  (str_of "data/word_frequencies.txt",
   text [ln "spelling 100"; ln "happy 50"; ln "cake 30"; ln "across 120"; ln "actress 10";
         ln "acres 20"; ln "peace 80"; ln "weather 60"; ln "whether 40"; ln "a 500"; ln "on 90";
         ln "no 85"])
].

Definition fs : filesystem := fun path =>
  match list_find (fun f => f.1 = path) files with
  | Some (_, f) => Ret f.2
  | None => Raise FileNotFoundError
  end.

(** A file system without the bigram table. *)
Definition fs_missing : filesystem := fun path =>
  if bool_decide (path = str_of "data/bigrams.csv") then Raise FileNotFoundError
  else fs path.

Definition construct (f : filesystem) : result SpellingCorrector :=
  init f (str_of "data/unigrams.csv") (str_of "data/bigrams.csv")
    (str_of "data/substitutions.csv") (str_of "data/deletions.csv")
    (str_of "data/additions.csv") (str_of "data/word_frequencies.txt").

(** The corrector built from [files]. *)
Definition built (r : result SpellingCorrector) : SpellingCorrector :=
  match r with
  | Ret c => c
  | Raise _ =>
      {| alphabet := ALPHABET; unigram_counts := ∅; bigram_counts := ∅;
         sub_counts := ∅; del_counts := ∅; add_counts := ∅; vocab := ∅;
         vocabulary := ∅; total_word_count := 0; total_unigram_count := 0;
         total_bigram_count := 0 |}
  end.

Definition corrector : SpellingCorrector := Eval vm_compute in built (construct fs).

(** A corrector whose only word has frequency zero: the total word count is
    zero while the unigram and bigram totals are positive. *)
Definition unseen_words : SpellingCorrector :=
  {| alphabet := ALPHABET;
     unigram_counts := {[ KStr (str_of "a") := 1 ]};
     bigram_counts := {[ KStr (str_of "ab") := 1 ]};
     sub_counts := ∅; del_counts := ∅; add_counts := ∅;
     vocab := {[ KStr (str_of "ab") := 0 ]};
     vocabulary := {[ KStr (str_of "ab") ]};
     total_word_count := 0; total_unigram_count := 1; total_bigram_count := 1 |}.

End Demo.

(** A decidable proposition about concrete data, settled by evaluation. *)
Ltac by_compute := apply (bool_decide_unpack _); vm_compute; exact I.

(** ** Further vocabulary *)

(** Every character of [w] is a letter of [alpha]. *)
Definition over_alphabet (alpha w : str) : Prop := Forall (fun c => c ∈ alpha) w.

(** The score the loop of [correct] stores for a candidate:
    [log_prior + log_channel]. *)
Definition candidate_score `{RT : PyRuntime} (self : SpellingCorrector)
    (word cand : str) : result float :=
  log_prior ← log_prior_prob self cand;
  log_channel ← log_channel_prob self word cand;
  Ret (float_add log_prior log_channel).

(** Iterating over a set visits its elements and nothing else. *)
Definition set_iter_law (RT : PyRuntime) : Prop :=
  ∀ (X : gset str) (x : str), x ∈ set_iter X ↔ x ∈ X.

(** [>] on floats is irreflexive and transitive. *)
Definition float_gt_law (RT : PyRuntime) : Prop :=
  (∀ x, float_gt x x = false) ∧
  (∀ x y z, float_gt x y = true -> float_gt y z = true -> float_gt x z = true).

(** Every vocabulary word is its own lowercase form. *)
Definition lowercase_vocabulary `{RT : PyRuntime} (self : SpellingCorrector) : Prop :=
  ∀ v : str, KStr v ∈ vocabulary self -> str_lower v = v.

(** The sum of the smoothed counts [vocab[w] + 1] over the vocabulary. *)
Definition smoothed_mass (self : SpellingCorrector) : Z :=
  foldr Z.add 0 ((fun k => get0 (vocab self) k + 1) <$> elements (vocabulary self)).

(** An iteration that yields the items of a list and ends. *)
Fixpoint stream_of {A : Type} (l : list A) : stream A :=
  match l with
  | [] => SNil
  | a :: l' => SCons a (stream_of l')
  end.

(** A second runtime, with the logarithm of a quotient kept as a fraction of
    positive integers, on which [>] is an order. *)
Module Exact.

Inductive efloat : Type :=
| EQuot (a b : Z)
| ELog (n d : positive)
| ENegInf
| ENan.

Definition ediv (a b : Z) : result efloat := Ret (EQuot a b).

Definition elog (x : efloat) : result efloat :=
  match x with
  | EQuot a b =>
      if 0 <? a * b then Ret (ELog (Z.to_pos (Z.abs a)) (Z.to_pos (Z.abs b)))
      else Raise ValueError
  | ENan => Ret ENan
  | _ => Raise ValueError
  end.

Definition eadd (x y : efloat) : efloat :=
  match x, y with
  | ELog a b, ELog c d => ELog (a * c) (b * d)
  | EQuot a b, EQuot c d => EQuot (a * d + c * b) (b * d)
  | ENegInf, (ENegInf | ELog _ _ | EQuot _ _) => ENegInf
  | (ELog _ _ | EQuot _ _), ENegInf => ENegInf
  | _, _ => ENan
  end.

Definition egt (x y : efloat) : bool :=
  match x, y with
  | ELog a b, ELog c d => (c * b <? a * d)%positive
  | ELog _ _, ENegInf => true
  | _, _ => false
  end.

Definition runtime : PyRuntime := {|
  float := efloat;
  float_div := ediv;
  math_log := elog;
  float_add := eadd;
  neg_inf := ENegInf;
  float_gt := egt;
  str_lower := fmap ascii_lower;
  set_iter := elements
|}.

End Exact.

(** Every count of a table is non-negative. *)
Definition table_nonneg (d : gmap pykey Z) : Prop :=
  ∀ k v, d !! k = Some v -> 0 <= v.

(** What one CSV row contributes to a table: the key made of its key
    columns and the integer of its [count] column. *)
Definition row_entry `{IO : PyIO} (key_cols : list str) (r : row) : result (pykey * Z) :=
  key ← key_tuple r key_cols;
  let key := match key with [c] => KCell c | _ => KTuple key end in
  field ← row_get r (str_of "count");
  n ← py_int field;
  Ret (key, n).

(** The shape of the keys [_load_counts] makes from [n] key columns. *)
Definition key_shape (n : nat) (k : pykey) : Prop :=
  match k with
  | KCell _ => n = 1%nat
  | KTuple cs => length cs = n ∧ n ≠ 1%nat
  end.

(** The items an iteration yields before it ends or raises. *)
Fixpoint stream_items {A : Type} (s : stream A) : list A :=
  match s with
  | SNil | SFail _ => []
  | SCons a s' => a :: stream_items s'
  end.

(** ** The test harness ([test.py]) *)

(** [str(n)] for an integer: its decimal digits, after a minus sign when it
    is negative. *)
Fixpoint decimal_digits (fuel : nat) (n : Z) (acc : str) : str :=
  let acc' := Z.to_N (48 + n mod 10) :: acc in
  match fuel with
  | O => acc'
  | S fuel' => if n <? 10 then acc' else decimal_digits fuel' (n / 10) acc'
  end.

Definition str_of_int (n : Z) : str :=
  if n <? 0 then chr "-" :: decimal_digits (Z.to_nat (Z.log2 (- n))) (- n) []
  else decimal_digits (Z.to_nat (Z.log2 n)) n [].

(** The status printed for a case. *)
Definition case_status (is_failure_suite is_correct : bool) : str :=
  if is_failure_suite then
    if is_correct then str_of "FAIL (AS EXPECTED)" else str_of "UNEXPECTEDLY PASSED"
  else
    if is_correct then str_of "PASSED" else str_of "FAILED".

(** The line printed for a case. *)
Definition case_line (typo result expected status : str) : str :=
  str_of "Input: '" ++ typo ++ str_of "' -> Output: '" ++ result
  ++ str_of "' (Expected: '" ++ expected ++ str_of "') - " ++ status.

(** The line printed at the end of a suite. *)
Definition summary_line (passed_count total : Z) : str :=
  str_of "--> Suite Summary: " ++ str_of_int passed_count ++ str_of "/"
  ++ str_of_int total ++ str_of " tests passed.".

Section Harness.
Context {RT : PyRuntime}.
Variable corrector : SpellingCorrector.

(** The loop of [run_test_suite] over the items of [test_cases]: the lines
    printed so far, and the count of passed cases or the exception that ended
    the loop. *)
Fixpoint test_loop (cases : list (str * str)) (is_failure_suite : bool)
    (passed_count : Z) (out : list str) : list str * result Z :=
  match cases with
  | [] => (out, Ret passed_count)
  | (typo, expected) :: cases' =>
      match correct corrector typo with
      | Raise e => (out, Raise e)
      | Ret result =>
          let is_correct := bool_decide (result = expected) in
          let passed_count := if is_correct then passed_count + 1 else passed_count in
          let status := case_status is_failure_suite is_correct in
          test_loop cases' is_failure_suite passed_count
            (out ++ [case_line typo result expected status])
      end
  end.

(** [run_test_suite]: what it prints, and how it ends. *)
Definition run_test_suite (test_cases : list (str * str)) (is_failure_suite : bool)
  : list str * result unit :=
  match test_loop test_cases is_failure_suite 0 [] with
  | (out, Ret passed_count) =>
      (out ++ [summary_line passed_count (Z.of_nat (length test_cases))], Ret tt)
  | (out, Raise e) => (out, Raise e)
  end.

(** The cases whose correction is the expected word. *)
Definition passing_cases (cases : list (str * str)) : list (str * str) :=
  List.filter
    (fun '(typo, expected) =>
       match correct corrector typo with
       | Ret result => bool_decide (result = expected)
       | Raise _ => false
       end) cases.
End Harness.

(** ** A corrector built from a table with a negative count

    [int] accepts a sign, so a count read from a file can be negative. *)
Module Negative.

(** [int] on a decimal literal with an optional minus sign. *)
Definition signed_int (field : option str) : result Z :=
  match field with
  | Some (45%N :: ds) =>
      match Demo.parse_int (Some ds) with
      | Ret n => Ret (- n)
      | Raise e => Raise e
      end
  | _ => Demo.parse_int field
  end.

Definition io : PyIO := {|
  csv_DictReader := Demo.dict_reader;
  iter_lines := fun t => Demo.to_stream (Demo.text_lines t);
  strip_split := Demo.words;
  py_int := signed_int
|}.

Definition files : list (str * str) := [
  (str_of "data/unigrams.csv", Demo.text [Demo.ln "unigram,count"; Demo.ln "a,1"]);
  (str_of "data/bigrams.csv", Demo.text [Demo.ln "bigram,count"; Demo.ln "ab,1"]);
  (str_of "data/substitutions.csv",
   Demo.text [Demo.ln "original,substituted,count"; Demo.ln "a,x,-1"]);
  (str_of "data/deletions.csv", Demo.text [Demo.ln "prefix,deleted,count"]);
  (str_of "data/additions.csv", Demo.text [Demo.ln "prefix,added,count"]);
  (str_of "data/word_frequencies.txt", Demo.text [Demo.ln "ab 5"])
].

Definition fs : filesystem := fun path =>
  match list_find (fun f => f.1 = path) files with
  | Some (_, f) => Ret f.2
  | None => Raise FileNotFoundError
  end.

Definition construct : result SpellingCorrector :=
  init (IO := io) fs (str_of "data/unigrams.csv") (str_of "data/bigrams.csv")
    (str_of "data/substitutions.csv") (str_of "data/deletions.csv")
    (str_of "data/additions.csv") (str_of "data/word_frequencies.txt").

(** The corrector built from [files]. *)
Definition corrector : SpellingCorrector := Eval vm_compute in Demo.built construct.

End Negative.

(** * Properties *)

(** ** The model at work *)

Example getitem_last : getitem (str_of "abc") (-1) = Ret (chr "c").
Proof. reflexivity. Qed.

Example getitem_out_of_range : getitem (str_of "abc") 3 = Raise IndexError.
Proof. reflexivity. Qed.

Example slice_wraps : slice (str_of "abc") (-1) 1 = [].
Proof. reflexivity. Qed.

Example construct_demo : Demo.construct Demo.fs = Ret Demo.corrector.
Proof. vm_compute. reflexivity. Qed.

Example demo_totals :
  total_word_count Demo.corrector = 1185 ∧
  total_unigram_count Demo.corrector = 499 ∧
  total_bigram_count Demo.corrector = 96.
Proof. by vm_compute. Qed.

Example correct_hapy : correct Demo.corrector (str_of "hapy") = Ret (str_of "happy").
Proof. vm_compute. reflexivity. Qed.

Example correct_cak : correct Demo.corrector (str_of "cak") = Ret (str_of "cake").
Proof. vm_compute. reflexivity. Qed.

Example channel_hapy :
  log_channel_prob Demo.corrector (str_of "hapy") (str_of "happy")
  = Ret (Demo.XLog 8 101).
Proof. vm_compute. reflexivity. Qed.

Example channel_leading_insertion :
  log_channel_prob Demo.corrector (str_of "xa") (str_of "a")
  = Ret (Demo.XLog 3 1684).
Proof. vm_compute. reflexivity. Qed.

(** ** Candidate generation *)

Section CandidateFacts.
Variable self : SpellingCorrector.

Lemma elem_of_splits (word L R : str) :
  (L, R) ∈ splits word ↔ word = L ++ R.
Proof.
  unfold splits. rewrite list_elem_of_fmap. split.
  - intros (i & Heq & _). inversion Heq; subst. by rewrite take_drop.
  - intros ->. exists (length L). split.
    + by rewrite take_app_length, drop_app_length.
    + apply elem_of_seq. rewrite length_app. lia.
Qed.

Lemma elem_of_deletes (word x : str) :
  x ∈ deletes word ↔ ∃ L c R, word = L ++ c :: R ∧ x = L ++ R.
Proof.
  unfold deletes. rewrite list_elem_of_bind. split.
  - intros ([L R] & Hx & Hs). apply elem_of_splits in Hs.
    destruct R as [|c R]; [by apply elem_of_nil in Hx|].
    apply list_elem_of_singleton in Hx. by exists L, c, R.
  - intros (L & c & R & -> & ->). exists (L, c :: R). split.
    + by apply list_elem_of_singleton.
    + by apply elem_of_splits.
Qed.

Lemma elem_of_transposes (word x : str) :
  x ∈ transposes word ↔
  ∃ L a b R, word = L ++ a :: b :: R ∧ x = L ++ b :: a :: R.
Proof.
  unfold transposes. rewrite list_elem_of_bind. split.
  - intros ([L R] & Hx & Hs). apply elem_of_splits in Hs.
    destruct R as [|a [|b R]]; try by apply elem_of_nil in Hx.
    apply list_elem_of_singleton in Hx. by exists L, a, b, R.
  - intros (L & a & b & R & -> & ->). exists (L, a :: b :: R). split.
    + by apply list_elem_of_singleton.
    + by apply elem_of_splits.
Qed.

Lemma elem_of_replaces (word x : str) :
  x ∈ replaces self word ↔
  ∃ L a c R, word = L ++ a :: R ∧ c ∈ alphabet self ∧ x = L ++ c :: R.
Proof.
  unfold replaces. rewrite list_elem_of_bind. split.
  - intros ([L R] & Hx & Hs). apply elem_of_splits in Hs.
    destruct R as [|a R]; [by apply elem_of_nil in Hx|].
    apply list_elem_of_bind in Hx as (c & Hx & Hc).
    apply list_elem_of_singleton in Hx. by exists L, a, c, R.
  - intros (L & a & c & R & -> & Hc & ->). exists (L, a :: R). split.
    + apply list_elem_of_bind. exists c. split; [|done].
      by apply list_elem_of_singleton.
    + by apply elem_of_splits.
Qed.

Lemma elem_of_inserts (word x : str) :
  x ∈ inserts self word ↔
  ∃ L c R, word = L ++ R ∧ c ∈ alphabet self ∧ x = L ++ c :: R.
Proof.
  unfold inserts. rewrite list_elem_of_bind. split.
  - intros ([L R] & Hx & Hs). apply elem_of_splits in Hs.
    apply list_elem_of_bind in Hx as (c & Hx & Hc).
    apply list_elem_of_singleton in Hx. by exists L, c, R.
  - intros (L & c & R & -> & Hc & ->). exists (L, R). split.
    + apply list_elem_of_bind. exists c. split; [|done].
      by apply list_elem_of_singleton.
    + by apply elem_of_splits.
Qed.

Lemma elem_of_all_edits (word x : str) :
  x ∈ all_edits self word ↔ one_edit (alphabet self) word x.
Proof.
  unfold all_edits.
  rewrite elem_of_list_to_set, !elem_of_app, elem_of_deletes,
    elem_of_transposes, elem_of_replaces, elem_of_inserts.
  split.
  - intros [(L & c & R & -> & ->)|[(L & a & b & R & -> & ->)|
      [(L & a & c & R & -> & Hc & ->)|(L & c & R & -> & Hc & ->)]]].
    + by eapply edit_delete.
    + by eapply edit_transpose.
    + by eapply edit_substitute.
    + by eapply edit_insert.
  - intros [L c R ->|L a b R ->|L a c R -> Hc|L c R -> Hc].
    + left. by exists L, c, R.
    + right; left. by exists L, a, b, R.
    + right; right; left. by exists L, a, c, R.
    + right; right; right. by exists L, c, R.
Qed.

Lemma elem_of_generate_candidates (word x : str) :
  x ∈ generate_candidates self word ↔
  KStr x ∈ vocabulary self ∧ one_edit (alphabet self) word x.
Proof.
  unfold generate_candidates.
  by rewrite elem_of_filter, elem_of_all_edits.
Qed.
End CandidateFacts.

(** ** Indexing *)

Lemma getitem_lookup (s : str) (i : nat) (c : char) :
  s !! i = Some c -> getitem s (Z.of_nat i) = Ret c.
Proof.
  intros Hi. pose proof (lookup_lt_Some _ _ _ Hi) as Hlt.
  unfold getitem, len.
  destruct (Z.ltb_spec (Z.of_nat i) 0) as [?|_]; [lia|].
  destruct (Z.ltb_spec (Z.of_nat i) 0) as [?|_]; [lia|].
  destruct (Z.leb_spec (Z.of_nat (length s)) (Z.of_nat i)) as [?|_]; [lia|].
  simpl. by rewrite Nat2Z.id, Hi.
Qed.

Lemma getitem_pred (s : str) (i : nat) (c : char) :
  s !! i = Some c -> getitem s (Z.of_nat (S i) - 1) = Ret c.
Proof.
  intros Hi. replace (Z.of_nat (S i) - 1) with (Z.of_nat i) by lia.
  by apply getitem_lookup.
Qed.

Lemma slice_window (s : str) (i : nat) (a b : char) :
  s !! i = Some a -> s !! S i = Some b ->
  slice s (Z.of_nat (S i) - 1) (Z.of_nat (S i) + 1) = [a; b].
Proof.
  intros Ha Hb. pose proof (lookup_lt_Some _ _ _ Hb) as Hlt.
  unfold slice, slice_bound, len.
  destruct (Z.ltb_spec (Z.of_nat (S i) - 1) 0) as [?|_]; [lia|].
  destruct (Z.ltb_spec (Z.of_nat (S i) + 1) 0) as [?|_]; [lia|].
  rewrite !Z.min_l by lia.
  replace (Z.to_nat (Z.of_nat (S i) + 1 - (Z.of_nat (S i) - 1))) with 2%nat by lia.
  replace (Z.to_nat (Z.of_nat (S i) - 1)) with i by lia.
  apply list_eq. intros [|[|j]]; simpl.
  - rewrite lookup_take_lt, lookup_drop by lia. by rewrite Nat.add_0_r.
  - rewrite lookup_take_lt, lookup_drop by lia.
    by replace (i + 1)%nat with (S i) by lia.
  - by rewrite lookup_take_ge by lia.
Qed.

Lemma range_seq (n : nat) : range (Z.of_nat n) = Z.of_nat <$> seq 0 n.
Proof. unfold range. by rewrite Nat2Z.id. Qed.

(** ** The first divergence *)

Lemma common_prefix_agree (a b : str) (j : nat) :
  (j < common_prefix a b)%nat -> a !! j = b !! j.
Proof.
  revert b j. induction a as [|x a IH]; intros [|y b] j; simpl; try lia.
  case_bool_decide as Hxy; [|lia]. subst y.
  destruct j as [|j]; simpl; [done|]. intros ?. apply IH. lia.
Qed.

Lemma common_prefix_diverge (a b : str) :
  length a ≠ length b -> a !! common_prefix a b ≠ b !! common_prefix a b.
Proof.
  revert b. induction a as [|x a IH]; intros [|y b]; simpl; try done.
  intros Hlen. case_bool_decide as Hxy; simpl.
  - apply IH. lia.
  - congruence.
Qed.

Lemma common_prefix_le (a b : str) :
  (common_prefix a b <= length a)%nat ∧ (common_prefix a b <= length b)%nat.
Proof.
  revert b. induction a as [|x a IH]; intros [|y b]; simpl; try lia.
  case_bool_decide; [|lia]. specialize (IH b). lia.
Qed.

Lemma common_prefix_cons (x : char) (a b : str) :
  common_prefix (x :: a) (x :: b) = S (common_prefix a b).
Proof. simpl. by rewrite bool_decide_eq_true_2. Qed.

Lemma first_divergence_common_prefix (a b : str) :
  length a ≠ length b -> first_divergence a b (common_prefix a b).
Proof.
  intros Hlen. split.
  - intros j. apply common_prefix_agree.
  - by apply common_prefix_diverge.
Qed.

Lemma first_divergence_unique (a b : str) (d d' : nat) :
  first_divergence a b d -> first_divergence a b d' -> d = d'.
Proof.
  intros [Hlt Hd] [Hlt' Hd'].
  destruct (Nat.lt_trichotomy d d') as [?|[?|?]]; [|done|].
  - by destruct Hd; apply Hlt'.
  - by destruct Hd'; apply Hlt.
Qed.

(** After prefixing with the marker, two strings of different lengths diverge
    at a position that is not the first and lies within the longer one. *)
Lemma marked_divergence (a b : str) :
  length a ≠ length b ->
  ∃ p, first_divergence (MARKER :: a) (MARKER :: b) (S p) ∧
       (p <= length a)%nat ∧ (p <= length b)%nat.
Proof.
  intros Hlen. exists (common_prefix a b). split.
  - rewrite <- (common_prefix_cons MARKER).
    apply first_divergence_common_prefix. simpl. lia.
  - apply common_prefix_le.
Qed.

(** ** The channel model *)

Section ChannelFacts.
Context {RT : PyRuntime}.
Variable self : SpellingCorrector.

Lemma diverges_end (a typo cand : str) (j : nat) :
  (length a <= j)%nat -> diverges a typo cand (Z.of_nat j) = Ret true.
Proof.
  intros Hj. unfold diverges, len.
  by destruct (Z.leb_spec (Z.of_nat (length a)) (Z.of_nat j)); [|lia].
Qed.

Lemma diverges_chars (a typo cand : str) (j : nat) (x y : char) :
  (j < length a)%nat -> typo !! j = Some x -> cand !! j = Some y ->
  diverges a typo cand (Z.of_nat j) = Ret (negb (bool_decide (x = y))).
Proof.
  intros Hj Hx Hy. unfold diverges, len.
  destruct (Z.leb_spec (Z.of_nat (length a)) (Z.of_nat j)); [lia|].
  by rewrite (getitem_lookup _ _ _ Hx), (getitem_lookup _ _ _ Hy).
Qed.

(** Below the divergence the loop condition is false, at the divergence it
    is true: [a] is the shorter string, the one whose length the condition
    tests. *)
Lemma diverges_before (a typo cand : str) (d j : nat) :
  first_divergence typo cand d -> (j < d)%nat ->
  (j < length a)%nat -> (length a <= length typo)%nat ->
  diverges a typo cand (Z.of_nat j) = Ret false.
Proof.
  intros [Hagree _] Hj Ha Hlen.
  destruct (lookup_lt_is_Some_2 typo j) as [x Hx]; [lia|].
  rewrite (diverges_chars a typo cand j x x); try done.
  - by rewrite bool_decide_eq_true_2.
  - by rewrite <- Hagree.
Qed.

Lemma diverges_at (a typo cand : str) (d : nat) :
  first_divergence typo cand d ->
  (length a <= length typo)%nat -> (length a <= length cand)%nat ->
  diverges a typo cand (Z.of_nat d) = Ret true.
Proof.
  intros [_ Hd] Ht Hc.
  destruct (decide (length a <= d)%nat) as [?|Hlt]; [by apply diverges_end|].
  destruct (lookup_lt_is_Some_2 typo d) as [x Hx]; [lia|].
  destruct (lookup_lt_is_Some_2 cand d) as [y Hy]; [lia|].
  rewrite (diverges_chars a typo cand d x y) by (done || lia).
  rewrite bool_decide_eq_false_2; [done|].
  congruence.
Qed.

Lemma deletion_loop_found (typo cand : str) (d : nat) :
  first_divergence typo cand d ->
  (d <= length typo)%nat -> (length typo < length cand)%nat ->
  ∀ n k, (k <= d < k + n)%nat ->
    deletion_loop self typo cand (Z.of_nat <$> seq k n)
    = deletion_prob self cand (Z.of_nat d).
Proof.
  intros Hdiv Hd Hlen. induction n as [|n IH]; intros k Hk; [lia|].
  simpl. destruct (decide (k = d)) as [->|Hne].
  - rewrite (diverges_at typo typo cand d) by (done || lia). done.
  - rewrite (diverges_before typo typo cand d k) by (done || lia).
    simpl. apply IH. lia.
Qed.

Lemma insertion_loop_found (typo cand : str) (d : nat) :
  first_divergence typo cand d ->
  (d <= length cand)%nat -> (length cand < length typo)%nat ->
  ∀ n k, (k <= d < k + n)%nat ->
    insertion_loop self typo cand (Z.of_nat <$> seq k n)
    = insertion_prob self typo cand (Z.of_nat d).
Proof.
  intros Hdiv Hd Hlen. induction n as [|n IH]; intros k Hk; [lia|].
  simpl. destruct (decide (k = d)) as [->|Hne].
  - rewrite (diverges_at cand typo cand d) by (done || lia). done.
  - rewrite (diverges_before cand typo cand d k) by (done || lia).
    simpl. apply IH. lia.
Qed.

Lemma log_channel_prob_shorter (typo cand : str) :
  (length typo < length cand)%nat ->
  log_channel_prob self typo cand
  = deletion_loop self (MARKER :: typo) (MARKER :: cand)
      (Z.of_nat <$> seq 0 (S (length cand))).
Proof.
  intros Hlen. unfold log_channel_prob, len. simpl length.
  destruct (Z.ltb_spec (Z.of_nat (S (length typo))) (Z.of_nat (S (length cand))));
    [|lia].
  by rewrite range_seq.
Qed.

Lemma log_channel_prob_longer (typo cand : str) :
  (length cand < length typo)%nat ->
  log_channel_prob self typo cand
  = insertion_loop self (MARKER :: typo) (MARKER :: cand)
      (Z.of_nat <$> seq 0 (S (length typo))).
Proof.
  intros Hlen. unfold log_channel_prob, len. simpl length.
  destruct (Z.ltb_spec (Z.of_nat (S (length typo))) (Z.of_nat (S (length cand))));
    [lia|].
  destruct (Z.ltb_spec (Z.of_nat (S (length cand))) (Z.of_nat (S (length typo))));
    [|lia].
  by rewrite range_seq.
Qed.

(** The deletion formula at a divergence [S p] of the prefixed strings. *)
Lemma deletion_prob_at (cand' : str) (p : nat) (prefix deleted : char) :
  cand' !! p = Some prefix -> cand' !! S p = Some deleted ->
  deletion_prob self cand' (Z.of_nat (S p))
  = log_ratio (get0 (del_counts self) (KPair prefix deleted) + 1)
      (get0 (bigram_counts self) (KStr [prefix; deleted])
       + total_bigram_count self).
Proof.
  intros Hp Hd. unfold deletion_prob.
  rewrite (getitem_pred _ _ _ Hp), (getitem_lookup _ _ _ Hd).
  simpl. by rewrite (slice_window _ _ _ _ Hp Hd).
Qed.

Lemma insertion_prob_at (typo' cand' : str) (p : nat) (prefix added : char) :
  cand' !! p = Some prefix -> typo' !! S p = Some added ->
  insertion_prob self typo' cand' (Z.of_nat (S p))
  = log_ratio (get0 (add_counts self) (KPair prefix added) + 1)
      ((if bool_decide (prefix = MARKER) then total_word_count self
        else get0 (unigram_counts self) (KStr [prefix]))
       + total_unigram_count self).
Proof.
  intros Hp Ha. unfold insertion_prob.
  rewrite (getitem_pred _ _ _ Hp), (getitem_lookup _ _ _ Ha).
  simpl. by repeat case_bool_decide.
Qed.
End ChannelFacts.

(** C3 (deletion error).  When the typo is shorter than the candidate, the
    channel model finds the first divergence of the two strings prefixed with
    the boundary marker, at an index [p + 1] past the marker; with [prefix]
    the character of the candidate before it and [deleted] the character of
    the candidate at it, the result is
    [log((DeletionCounts[(prefix, deleted)] + 1) / (context + total_bigram_count))],
    where the context count is the bigram count of the two-character window
    ([prefix] followed by [deleted]) when the window holds two characters and
    the unigram count of [prefix] otherwise.  The window always holds two
    characters. *)
Theorem deletion_channel_prob `{RT : PyRuntime} (self : SpellingCorrector)
    (typo cand : str) :
  (length typo < length cand)%nat ->
  ∃ (p : nat) (prefix deleted : char),
    first_divergence (MARKER :: typo) (MARKER :: cand) (S p) ∧
    (MARKER :: cand) !! p = Some prefix ∧
    (MARKER :: cand) !! S p = Some deleted ∧
    slice (MARKER :: cand) (Z.of_nat (S p) - 1) (Z.of_nat (S p) + 1)
      = [prefix; deleted] ∧
    log_channel_prob self typo cand
    = log_ratio (get0 (del_counts self) (KPair prefix deleted) + 1)
        (deletion_context self [prefix; deleted] prefix + total_bigram_count self).
Proof.
  intros Hlen.
  destruct (marked_divergence typo cand) as (p & Hdiv & Hpt & Hpc); [lia|].
  destruct (lookup_lt_is_Some_2 (MARKER :: cand) p) as [prefix Hprefix];
    [simpl; lia|].
  destruct (lookup_lt_is_Some_2 (MARKER :: cand) (S p)) as [deleted Hdeleted];
    [simpl; lia|].
  exists p, prefix, deleted. repeat split; try done.
  - by apply Hdiv.
  - by apply Hdiv.
  - by apply slice_window.
  - rewrite log_channel_prob_shorter by done.
    rewrite (deletion_loop_found self _ _ (S p) Hdiv) by (simpl; lia).
    by apply deletion_prob_at.
Qed.

Lemma deletion_channel_prob_witness :
  (length (str_of "hapy") < length (str_of "happy"))%nat ∧
  ∃ (p : nat) (prefix deleted : char),
    first_divergence (MARKER :: str_of "hapy") (MARKER :: str_of "happy") (S p) ∧
    (MARKER :: str_of "happy") !! p = Some prefix ∧
    (MARKER :: str_of "happy") !! S p = Some deleted ∧
    slice (MARKER :: str_of "happy") (Z.of_nat (S p) - 1) (Z.of_nat (S p) + 1)
      = [prefix; deleted] ∧
    log_channel_prob Demo.corrector (str_of "hapy") (str_of "happy")
    = log_ratio (get0 (del_counts Demo.corrector) (KPair prefix deleted) + 1)
        (deletion_context Demo.corrector [prefix; deleted] prefix
         + total_bigram_count Demo.corrector).
Proof.
  split; [simpl; lia|].
  apply (deletion_channel_prob Demo.corrector (str_of "hapy") (str_of "happy")).
  simpl; lia.
Defined.

(** C4 (insertion error).  When the typo is longer than the candidate, the
    channel model finds the first divergence of the two strings prefixed with
    the boundary marker, at an index [p + 1]; with [prefix] the character of
    the candidate before it and [added] the character of the typo at it, the
    result is
    [log((InsertionCounts[(prefix, added)] + 1) / (context + total_unigram_count))],
    where the context count is [total_word_count] when [prefix] is the
    boundary marker and the unigram count of [prefix] otherwise. *)
Theorem insertion_channel_prob `{RT : PyRuntime} (self : SpellingCorrector)
    (typo cand : str) :
  (length cand < length typo)%nat ->
  ∃ (p : nat) (prefix added : char),
    first_divergence (MARKER :: typo) (MARKER :: cand) (S p) ∧
    (MARKER :: cand) !! p = Some prefix ∧
    (MARKER :: typo) !! S p = Some added ∧
    log_channel_prob self typo cand
    = log_ratio (get0 (add_counts self) (KPair prefix added) + 1)
        (insertion_context self prefix + total_unigram_count self).
Proof.
  intros Hlen.
  destruct (marked_divergence typo cand) as (p & Hdiv & Hpt & Hpc); [lia|].
  destruct (lookup_lt_is_Some_2 (MARKER :: cand) p) as [prefix Hprefix];
    [simpl; lia|].
  destruct (lookup_lt_is_Some_2 (MARKER :: typo) (S p)) as [added Hadded];
    [simpl; lia|].
  exists p, prefix, added. repeat split; try done.
  - by apply Hdiv.
  - by apply Hdiv.
  - rewrite log_channel_prob_longer by done.
    rewrite (insertion_loop_found self _ _ (S p) Hdiv) by (simpl; lia).
    by apply insertion_prob_at.
Qed.

Lemma insertion_channel_prob_witness :
  (length (str_of "a") < length (str_of "xa"))%nat ∧
  ∃ (p : nat) (prefix added : char),
    first_divergence (MARKER :: str_of "xa") (MARKER :: str_of "a") (S p) ∧
    (MARKER :: str_of "a") !! p = Some prefix ∧
    (MARKER :: str_of "xa") !! S p = Some added ∧
    log_channel_prob Demo.corrector (str_of "xa") (str_of "a")
    = log_ratio (get0 (add_counts Demo.corrector) (KPair prefix added) + 1)
        (insertion_context Demo.corrector prefix
         + total_unigram_count Demo.corrector).
Proof.
  split; [simpl; lia|].
  apply (insertion_channel_prob Demo.corrector (str_of "xa") (str_of "a")).
  simpl; lia.
Defined.

(** ** Strings of equal length *)

Lemma mismatches_refl (k : Z) (s : str) : mismatches k s s = [].
Proof.
  revert k. induction s as [|x s IH]; intros k; simpl; [done|].
  by rewrite bool_decide_eq_true_2.
Qed.

Lemma mismatches_nil (k : Z) (typo cand : str) :
  length typo = length cand -> mismatches k typo cand = [] -> typo = cand.
Proof.
  revert k cand. induction typo as [|x typo IH]; intros k [|y cand]; simpl;
    try done.
  intros Hlen. case_bool_decide as Hxy; [|done].
  intros Hm. subst y. f_equal. apply (IH (k + 1)); [lia|done].
Qed.

Lemma mismatches_lower_bound (k p : Z) (typo cand : str) (t c : char) :
  (p, t, c) ∈ mismatches k typo cand -> k <= p.
Proof.
  revert k cand. induction typo as [|x typo IH]; intros k [|y cand]; simpl;
    try (by intros ?%elem_of_nil).
  case_bool_decide.
  - intros Hin%IH. lia.
  - intros [Heq|Hin%IH]%elem_of_cons; [|lia]. inversion Heq. lia.
Qed.

Lemma one_substitution_tail (x : char) (typo cand : str) (i : nat) (t c : char) :
  one_substitution (x :: typo) (x :: cand) (S i) t c <->
  one_substitution typo cand i t c.
Proof.
  unfold one_substitution. simpl. split.
  - intros (Ht & Hc & Hne & Hrest). repeat split; try done.
    intros j Hj. apply (Hrest (S j)). lia.
  - intros (Ht & Hc & Hne & Hrest). repeat split; try done.
    intros [|j] Hj; simpl; [done|]. apply Hrest. lia.
Qed.

Lemma one_substitution_head (x y : char) (typo : str) :
  x ≠ y -> one_substitution (x :: typo) (y :: typo) 0 x y.
Proof.
  intros Hxy. repeat split; try done. intros [|j] Hj; simpl; [lia|done].
Qed.

Lemma one_transposition_tail (x : char) (typo cand : str) (i : nat) :
  one_transposition (x :: typo) (x :: cand) (S i) <->
  one_transposition typo cand i.
Proof.
  unfold one_transposition. simpl. split.
  - intros (a & b & Hab & H1 & H2 & H3 & H4 & Hrest).
    exists a, b. repeat split; try done.
    intros j Hj Hj'. apply (Hrest (S j)); lia.
  - intros (a & b & Hab & H1 & H2 & H3 & H4 & Hrest).
    exists a, b. repeat split; try done.
    intros [|j] Hj Hj'; simpl; [done|]. apply Hrest; lia.
Qed.

(** One differing position: the comprehension collects that position alone. *)
Lemma mismatches_substitution (k : Z) (typo cand : str) (i : nat) (t c : char) :
  one_substitution typo cand i t c ->
  mismatches k typo cand = [(k + Z.of_nat i, t, c)].
Proof.
  revert k cand i. induction typo as [|x typo IH]; intros k cand i Hsub.
  - by destruct Hsub as [? _].
  - destruct cand as [|y cand]; [by destruct Hsub as (_ & ? & _)|].
    destruct i as [|i].
    + destruct Hsub as (Ht & Hc & Hne & Hrest). simpl in Ht, Hc.
      inversion Ht; inversion Hc; subst.
      assert (typo = cand) as ->.
      { apply list_eq. intros j. apply (Hrest (S j)). lia. }
      simpl. rewrite bool_decide_eq_false_2 by done.
      rewrite mismatches_refl. by rewrite Z.add_0_r.
    + assert (x = y) as <-.
      { destruct Hsub as (_ & _ & _ & Hrest).
        specialize (Hrest 0%nat). simpl in Hrest.
        assert (Some x = Some y) by (apply Hrest; lia). congruence. }
      apply (proj1 (one_substitution_tail _ _ _ _ _ _)) in Hsub.
      simpl. rewrite bool_decide_eq_true_2 by done.
      rewrite (IH (k + 1) cand i Hsub).
      by replace (k + 1 + Z.of_nat i) with (k + Z.of_nat (S i)) by lia.
Qed.

(** Two adjacent swapped positions: the comprehension collects the two. *)
Lemma mismatches_transposition (k : Z) (typo cand : str) (i : nat) :
  one_transposition typo cand i ->
  ∃ a b, a ≠ b ∧
    mismatches k typo cand
    = [(k + Z.of_nat i, a, b); (k + Z.of_nat i + 1, b, a)].
Proof.
  revert k cand i. induction typo as [|x typo IH]; intros k cand i Htr.
  - by destruct Htr as (? & ? & _ & ? & _).
  - destruct cand as [|y cand]; [by destruct Htr as (? & ? & _ & _ & _ & ? & _)|].
    destruct i as [|i].
    + destruct Htr as (a & b & Hab & H1 & H2 & H3 & H4 & Hrest).
      simpl in H1, H2, H3, H4. inversion H1; inversion H3; subst.
      destruct typo as [|x' typo]; [done|].
      destruct cand as [|y' cand]; [done|].
      simpl in H2, H4. inversion H2; inversion H4; subst.
      assert (typo = cand) as ->.
      { apply list_eq. intros j. apply (Hrest (S (S j))); lia. }
      exists a, b. split; [done|]. simpl.
      rewrite !bool_decide_eq_false_2 by congruence.
      rewrite mismatches_refl. by rewrite Z.add_0_r.
    + assert (x = y) as <-.
      { destruct Htr as (a & b & _ & _ & _ & _ & _ & Hrest).
        specialize (Hrest 0%nat). simpl in Hrest.
        assert (Some x = Some y) by (apply Hrest; lia). congruence. }
      apply (proj1 (one_transposition_tail _ _ _ _)) in Htr.
      destruct (IH (k + 1) cand i Htr) as (a & b & Hab & Hm).
      exists a, b. split; [done|].
      simpl. rewrite bool_decide_eq_true_2 by done.
      rewrite Hm.
      by replace (k + 1 + Z.of_nat i) with (k + Z.of_nat (S i)) by lia.
Qed.

(** Conversely, a single collected position is a substitution, and two
    collected positions that pass the test of the transposition branch are a
    transposition. *)
Lemma mismatches_one (k p : Z) (typo cand : str) (t c : char) :
  length typo = length cand ->
  mismatches k typo cand = [(p, t, c)] ->
  ∃ i, one_substitution typo cand i t c.
Proof.
  revert k cand. induction typo as [|x typo IH]; intros k [|y cand]; simpl;
    try done.
  intros Hlen. case_bool_decide as Hxy.
  - subst y. intros Hm. destruct (IH (k + 1) cand) as [i Hi]; [lia|done|].
    exists (S i). by apply (proj2 (one_substitution_tail _ _ _ _ _ _)).
  - intros Hm. inversion Hm as [[Hk Ht Hc Hnil]]. subst.
    apply mismatches_nil in Hnil as ->; [|lia].
    exists 0%nat. by apply one_substitution_head.
Qed.

Lemma mismatches_two (k p1 p2 : Z) (typo cand : str) (t1 c1 t2 c2 : char) :
  length typo = length cand ->
  mismatches k typo cand = [(p1, t1, c1); (p2, t2, c2)] ->
  p2 = p1 + 1 -> t1 = c2 -> t2 = c1 ->
  ∃ i, one_transposition typo cand i.
Proof.
  revert k cand. induction typo as [|x typo IH]; intros k [|y cand]; simpl;
    try done.
  intros Hlen. case_bool_decide as Hxy.
  - subst y. intros Hm H1 H2 H3.
    destruct (IH (k + 1) cand) as [i Hi]; try done; [lia|].
    exists (S i). by apply (proj2 (one_transposition_tail _ _ _ _)).
  - intros Hm Hp Ht Hc. inversion Hm as [[Hk Ht1 Hc1 Htail]]. subst.
    destruct typo as [|x' typo], cand as [|y' cand]; simpl in Htail; try done.
    case_bool_decide as Hxy'.
    + assert (p1 + 1 + 1 <= p1 + 1); [|lia].
      eapply mismatches_lower_bound.
      rewrite Htail. by left.
    + inversion Htail as [[Ht2 Hc2 Hnil]]. subst.
      apply mismatches_nil in Hnil as ->; [|simpl in Hlen; lia].
      exists 0%nat, c2, c1. repeat split; try done.
      intros [|[|j]] Hj Hj'; simpl; (lia || done).
Qed.

Section EqualLength.
Context {RT : PyRuntime}.
Variable self : SpellingCorrector.

Lemma diffs_of_mismatches (typo cand : str) :
  length typo = length cand ->
  ∀ n k, (k + n = length typo)%nat ->
    diffs_of typo cand (Z.of_nat <$> seq k n)
    = Ret (mismatches (Z.of_nat k) (drop k typo) (drop k cand)).
Proof.
  intros Hlen. induction n as [|n IH]; intros k Hk; simpl.
  - by rewrite !drop_ge by lia.
  - destruct (lookup_lt_is_Some_2 typo k) as [t Ht]; [lia|].
    destruct (lookup_lt_is_Some_2 cand k) as [c Hc]; [lia|].
    rewrite (getitem_lookup _ _ _ Ht), (getitem_lookup _ _ _ Hc). simpl.
    rewrite IH by lia. simpl.
    rewrite (drop_S typo t k Ht), (drop_S cand c k Hc). simpl.
    replace (Z.of_nat k + 1) with (Z.of_nat (S k)) by lia.
    by case_bool_decide.
Qed.

(** The branch taken for strings of equal length, in terms of the
    collected positions. *)
Lemma log_channel_prob_equal (typo cand : str) :
  length typo = length cand ->
  log_channel_prob self typo cand
  = match mismatches 0 (MARKER :: typo) (MARKER :: cand) with
    | [(i, typo_char, cand_char)] =>
        log_ratio (get0 (sub_counts self) (KPair cand_char typo_char) + 1)
          (get0 (unigram_counts self) (KStr [cand_char])
           + total_unigram_count self)
    | [(i1, t1, c1); (i2, t2, c2)] =>
        if (i2 =? i1 + 1) && bool_decide (t1 = c2) && bool_decide (t2 = c1)
        then log_ratio 1 (total_word_count self)
        else Ret neg_inf
    | _ => Ret neg_inf
    end.
Proof.
  intros Hlen. unfold log_channel_prob, len. simpl length. rewrite Hlen.
  rewrite Z.ltb_irrefl, Z.eqb_refl, range_seq.
  rewrite (diffs_of_mismatches (MARKER :: typo) (MARKER :: cand))
    by (simpl; lia).
  done.
Qed.
End EqualLength.

(** C2 (substitution, transposition, anything else).  For a typo and a
    candidate of equal length, compared after prefixing both with the boundary
    marker: when they differ at exactly one position, holding [t] in the typo
    and [c] in the candidate, the channel model returns
    [log((SubstitutionCounts[(c, t)] + 1) / (UnigramCounts[c] + total_unigram_count))];
    when they differ at exactly two adjacent positions whose characters are
    swapped, it returns [log(1 / total_word_count)]; for every other pattern
    it returns minus infinity, and does not raise. *)
Theorem equal_length_channel_prob `{RT : PyRuntime} (self : SpellingCorrector)
    (typo cand : str) :
  length typo = length cand ->
  (∀ i t c, one_substitution (MARKER :: typo) (MARKER :: cand) i t c ->
     log_channel_prob self typo cand
     = log_ratio (get0 (sub_counts self) (KPair c t) + 1)
         (get0 (unigram_counts self) (KStr [c]) + total_unigram_count self)) ∧
  (∀ i, one_transposition (MARKER :: typo) (MARKER :: cand) i ->
     log_channel_prob self typo cand = log_ratio 1 (total_word_count self)) ∧
  ((∀ i t c, ¬ one_substitution (MARKER :: typo) (MARKER :: cand) i t c) ->
   (∀ i, ¬ one_transposition (MARKER :: typo) (MARKER :: cand) i) ->
     log_channel_prob self typo cand = Ret neg_inf).
Proof.
  intros Hlen. rewrite (log_channel_prob_equal self typo cand Hlen).
  assert (length (MARKER :: typo) = length (MARKER :: cand)) as Hlen'
    by (simpl; lia).
  split; [|split].
  - intros i t c Hsub. by rewrite (mismatches_substitution 0 _ _ _ _ _ Hsub).
  - intros i Htr.
    destruct (mismatches_transposition 0 _ _ _ Htr) as (a & b & Hab & ->).
    by rewrite Z.eqb_refl, !bool_decide_eq_true_2.
  - intros Hsub Htr.
    destruct (mismatches 0 (MARKER :: typo) (MARKER :: cand))
      as [|[[i1 t1] c1] [|[[i2 t2] c2] [|third rest]]] eqn:Hm; try done.
    + destruct (mismatches_one _ _ _ _ _ _ Hlen' Hm) as [i Hi].
      by destruct (Hsub i t1 c1).
    + destruct (Z.eqb_spec i2 (i1 + 1)) as [Hi|]; [|done].
      case_bool_decide as Ht; [|done]. case_bool_decide as Hc; [|done].
      destruct (mismatches_two _ _ _ _ _ _ _ _ _ Hlen' Hm Hi Ht Hc) as [i Hi'].
      by destruct (Htr i).
Qed.

Lemma equal_length_channel_prob_witness :
  length (str_of "on") = length (str_of "no") ∧
  log_channel_prob Demo.corrector (str_of "acress") (str_of "across")
  = log_ratio (get0 (sub_counts Demo.corrector) (KPair (chr "o") (chr "e")) + 1)
      (get0 (unigram_counts Demo.corrector) (KStr [chr "o"])
       + total_unigram_count Demo.corrector) ∧
  log_channel_prob Demo.corrector (str_of "on") (str_of "no")
  = log_ratio 1 (total_word_count Demo.corrector) ∧
  log_channel_prob Demo.corrector (str_of "on") (str_of "xy") = Ret neg_inf.
Proof.
  split; [reflexivity|]. split; [|split].
  - apply (equal_length_channel_prob Demo.corrector (str_of "acress")
             (str_of "across") eq_refl) with (i := 4%nat).
    repeat split; try done.
    intros [|[|[|[|[|[|[|[|j]]]]]]]] Hj; simpl; (lia || done).
  - apply (equal_length_channel_prob Demo.corrector (str_of "on")
             (str_of "no") eq_refl) with (i := 1%nat).
    exists (chr "o"), (chr "n"). repeat split; try done.
    intros [|[|[|[|j]]]] Hj Hj'; simpl; (lia || done).
  - apply (equal_length_channel_prob Demo.corrector (str_of "on")
             (str_of "xy") eq_refl).
    + intros i t c (_ & _ & _ & Hrest).
      destruct (decide (i = 1%nat)) as [->|Hne].
      * by specialize (Hrest 2%nat ltac:(lia)).
      * by specialize (Hrest 1%nat ltac:(lia)).
    + intros i (a & b & Hab & H1 & H2 & H3 & H4 & _).
      destruct i as [|[|[|i]]]; cbv in H1, H2, H3, H4; congruence.
Defined.

(** C1.  With the alphabet of the twenty-six lowercase letters, a word is in
    the candidate set generated for [w] exactly when it is a vocabulary word
    reachable from [w] by one deletion, one adjacent transposition, one
    substitution by a letter of the alphabet or one insertion of a letter of
    the alphabet: every such word is in the set, and every member of the set
    is a vocabulary word so reachable. *)
Theorem generate_candidates_exact (self : SpellingCorrector) (w x : str) :
  alphabet self = ALPHABET ->
  x ∈ generate_candidates self w ↔
  KStr x ∈ vocabulary self ∧ one_edit ALPHABET w x.
Proof.
  intros Halpha. unfold generate_candidates.
  rewrite elem_of_filter, elem_of_all_edits.
  by rewrite Halpha.
Qed.

Lemma generate_candidates_exact_witness :
  alphabet Demo.corrector = ALPHABET ∧
  (str_of "cake" ∈ generate_candidates Demo.corrector (str_of "cak") ↔
   KStr (str_of "cake") ∈ vocabulary Demo.corrector ∧
   one_edit ALPHABET (str_of "cak") (str_of "cake")).
Proof.
  split; [reflexivity|].
  apply (generate_candidates_exact Demo.corrector (str_of "cak") (str_of "cake")).
  reflexivity.
Defined.

(** C8, as the code has it.  For the empty string the candidate generator
    yields the one-letter vocabulary words whose letter is in the alphabet:
    inserting a letter into the empty string is one edit. *)
Theorem generate_candidates_empty_word (self : SpellingCorrector) (x : str) :
  x ∈ generate_candidates self [] ↔
  KStr x ∈ vocabulary self ∧ ∃ c, c ∈ alphabet self ∧ x = [c].
Proof.
  rewrite elem_of_generate_candidates. split; intros [Hv Hx]; (split; [done|]).
  - inversion Hx as [L c R Hw|L a b R Hw|L a c R Hw Hc|L c R Hw Hc]; subst.
    + by destruct L.
    + by destruct L.
    + by destruct L.
    + symmetry in Hw. apply app_eq_nil in Hw as [-> ->]. by exists c.
  - destruct Hx as (c & Hc & ->). by apply (edit_insert _ _ [] c []).
Qed.

(** C8, as stated, fails: the vocabulary of the demonstration corrector holds
    the word [a], which is a candidate for the empty string. *)
Lemma generate_candidates_empty_word_nonempty :
  generate_candidates Demo.corrector [] ≠ ∅.
Proof.
  intros Hempty.
  assert (str_of "a" ∈ generate_candidates Demo.corrector []) as Hin.
  { apply elem_of_generate_candidates. split.
    - by_compute.
    - apply (edit_insert _ _ [] (chr "a") []); [done|].
      by_compute. }
  rewrite Hempty in Hin. by apply not_elem_of_empty in Hin.
Qed.

(** ** The corrector *)

Lemma ascii_lower_lowercase (w : str) :
  lowercase_word w -> Forall (fun c => is_ascii c = true) w ∧ ascii_lower <$> w = w.
Proof.
  induction 1 as [|c w Hc Hw [IHa IHl]]; [done|].
  unfold is_lower_letter in Hc.
  apply andb_true_iff in Hc as [Hlo%N.leb_le Hhi%N.leb_le].
  split.
  - constructor; [|done]. unfold is_ascii. apply N.ltb_lt. lia.
  - rewrite fmap_cons, IHl. f_equal. unfold ascii_lower, is_upper_letter.
    destruct (N.leb_spec c 90); [lia|]. by rewrite andb_false_r.
Qed.

Lemma ascii_lower_not_upper (c : char) : is_upper_letter (ascii_lower c) = false.
Proof.
  unfold ascii_lower. destruct (is_upper_letter c) eqn:Hc; [|done].
  unfold is_upper_letter in *.
  apply andb_true_iff in Hc as [Hlo%N.leb_le Hhi%N.leb_le].
  destruct (N.leb_spec (c + 32) 90); [lia|]. by rewrite andb_false_r.
Qed.

Lemma demo_lower_ascii : lower_ascii_law Demo.runtime.
Proof. by intros s _. Qed.

Lemma demo_lower_no_upper : lower_no_upper_law Demo.runtime.
Proof.
  intros s c. simpl. intros (c' & -> & _)%list_elem_of_fmap.
  apply ascii_lower_not_upper.
Qed.

(** C5.  A vocabulary word made of lowercase letters is returned unchanged. *)
Theorem correct_known_word `{RT : PyRuntime} (self : SpellingCorrector) (w : str) :
  lower_ascii_law RT ->
  lowercase_word w ->
  KStr w ∈ vocabulary self ->
  correct self w = Ret w.
Proof.
  intros Hlower Hw Hin. unfold correct.
  destruct (ascii_lower_lowercase w Hw) as [Hascii Hfix].
  rewrite (Hlower w Hascii), Hfix.
  by rewrite bool_decide_eq_true_2.
Qed.

Lemma correct_known_word_witness :
  lowercase_word (str_of "peace") ∧
  KStr (str_of "peace") ∈ vocabulary Demo.corrector ∧
  correct Demo.corrector (str_of "peace") = Ret (str_of "peace").
Proof.
  assert (lowercase_word (str_of "peace")) as Hw by (repeat constructor).
  assert (KStr (str_of "peace") ∈ vocabulary Demo.corrector) as Hin by by_compute.
  split; [done|]. split; [done|].
  exact (correct_known_word Demo.corrector (str_of "peace") demo_lower_ascii Hw Hin).
Defined.

(** C6.  When the lowercased word is not in the vocabulary and the candidate
    generator yields the empty set for it, the input is returned as it was
    given, in its original case. *)
Theorem correct_no_candidates `{RT : PyRuntime} (self : SpellingCorrector) (w : str) :
  KStr (str_lower w) ∉ vocabulary self ->
  generate_candidates self (str_lower w) = ∅ ->
  correct self w = Ret w.
Proof.
  intros Hnotin Hempty. unfold correct.
  rewrite bool_decide_eq_false_2 by done.
  by rewrite bool_decide_eq_true_2.
Qed.

Lemma correct_no_candidates_witness :
  (KStr (str_lower (str_of "ZzX")) ∉ vocabulary Demo.corrector) ∧
  generate_candidates Demo.corrector (str_lower (str_of "ZzX")) = ∅ ∧
  correct Demo.corrector (str_of "ZzX") = Ret (str_of "ZzX").
Proof.
  assert (KStr (str_lower (str_of "ZzX")) ∉ vocabulary Demo.corrector) as Hnotin
    by by_compute.
  assert (generate_candidates Demo.corrector (str_lower (str_of "ZzX")) = ∅) as Hempty
    by by_compute.
  split; [done|]. split; [done|].
  exact (correct_no_candidates Demo.corrector (str_of "ZzX") Hnotin Hempty).
Defined.

(** C10.  An input that holds an uppercase letter and whose lowercased form
    is in the vocabulary is answered with the lowercased form, which differs
    from the input: the case of the caller is not kept for a vocabulary hit. *)
Theorem correct_lowercases_known_word `{RT : PyRuntime} (self : SpellingCorrector)
    (w : str) :
  lower_no_upper_law RT ->
  (∃ c, c ∈ w ∧ is_upper_letter c = true) ->
  KStr (str_lower w) ∈ vocabulary self ->
  correct self w = Ret (str_lower w) ∧ str_lower w ≠ w.
Proof.
  intros Hlower (c & Hc & Hupper) Hin. split.
  - unfold correct. by rewrite bool_decide_eq_true_2.
  - intros Heq. rewrite <- Heq in Hc. apply Hlower in Hc. congruence.
Qed.

Lemma correct_lowercases_known_word_witness :
  (∃ c, c ∈ str_of "Peace" ∧ is_upper_letter c = true) ∧
  KStr (str_lower (str_of "Peace")) ∈ vocabulary Demo.corrector ∧
  correct Demo.corrector (str_of "Peace") = Ret (str_of "peace") ∧
  str_of "peace" ≠ str_of "Peace".
Proof.
  assert (∃ c, c ∈ str_of "Peace" ∧ is_upper_letter c = true) as Hupper.
  { exists (chr "P"). split; [by left|done]. }
  assert (KStr (str_lower (str_of "Peace")) ∈ vocabulary Demo.corrector) as Hin
    by by_compute.
  split; [done|]. split; [done|].
  exact (correct_lowercases_known_word Demo.corrector (str_of "Peace")
           demo_lower_no_upper Hupper Hin).
Defined.

(** ** Totality of [correct] *)

Lemma count_max_pos : 0 < COUNT_MAX.
Proof. reflexivity. Qed.

Lemma count_max_double : 2 * COUNT_MAX = FLOAT_SAFE.
Proof. reflexivity. Qed.

Lemma get0_ok (d : gmap pykey Z) (k : pykey) :
  table_ok d -> 0 <= get0 d k < COUNT_MAX.
Proof.
  intros Hd. unfold get0. destruct (d !! k) as [v|] eqn:Hk; simpl.
  - by apply (Hd k).
  - pose proof count_max_pos. lia.
Qed.

Section Totality.
Context {RT : PyRuntime}.
Variable self : SpellingCorrector.
Hypothesis Hlog : log_ratio_law RT.
Hypothesis Hok : corrector_ok self.

(** [math.log(a / b)] returns when [a] is a count plus one and [b] the sum
    of a count and a positive total. *)
Lemma log_ratio_returns (a b : Z) :
  0 < a <= COUNT_MAX -> 0 < b < 2 * COUNT_MAX ->
  ∃ r, log_ratio a b = Ret r.
Proof.
  intros Ha Hb. pose proof count_max_double as Hdouble.
  destruct (Hlog a b) as (q & r & Hq & Hr); [lia..|].
  exists r. unfold log_ratio, truediv.
  destruct (Z.eqb_spec b 0) as [?|_]; [lia|].
  by rewrite Hq.
Qed.

Lemma log_prior_prob_returns (word : str) :
  ∃ r, log_prior_prob self word = Ret r.
Proof.
  unfold log_prior_prob.
  pose proof (get0_ok (vocab self) (KStr word) (ok_vocab _ Hok)).
  pose proof (ok_size _ Hok). pose proof (ok_total_word _ Hok) as [? ?].
  apply log_ratio_returns; lia.
Qed.

Lemma log_channel_prob_returns (typo cand : str) :
  ∃ r, log_channel_prob self typo cand = Ret r.
Proof.
  pose proof (ok_total_word _ Hok) as [? ?].
  pose proof (ok_total_unigram _ Hok) as [? ?].
  pose proof (ok_total_bigram _ Hok) as [? ?].
  destruct (Nat.lt_trichotomy (length typo) (length cand)) as [Hlt|[Heq|Hgt]].
  - destruct (marked_divergence typo cand) as (p & Hdiv & Hpt & Hpc); [lia|].
    destruct (lookup_lt_is_Some_2 (MARKER :: cand) p) as [prefix Hprefix];
      [simpl; lia|].
    destruct (lookup_lt_is_Some_2 (MARKER :: cand) (S p)) as [deleted Hdeleted];
      [simpl; lia|].
    rewrite log_channel_prob_shorter by done.
    rewrite (deletion_loop_found self _ _ (S p) Hdiv) by (simpl; lia).
    rewrite (deletion_prob_at self _ _ _ _ Hprefix Hdeleted).
    pose proof (get0_ok _ (KPair prefix deleted) (ok_del _ Hok)).
    pose proof (get0_ok _ (KStr [prefix; deleted]) (ok_bigram _ Hok)).
    apply log_ratio_returns; lia.
  - rewrite (log_channel_prob_equal self typo cand Heq).
    destruct (mismatches 0 (MARKER :: typo) (MARKER :: cand))
      as [|[[i1 t1] c1] [|[[i2 t2] c2] [|third rest]]]; try by eexists.
    + pose proof (get0_ok _ (KPair c1 t1) (ok_sub _ Hok)).
      pose proof (get0_ok _ (KStr [c1]) (ok_unigram _ Hok)).
      apply log_ratio_returns; lia.
    + destruct ((i2 =? i1 + 1) && bool_decide (t1 = c2) && bool_decide (t2 = c1));
        [|by eexists].
      apply log_ratio_returns; lia.
  - destruct (marked_divergence typo cand) as (p & Hdiv & Hpt & Hpc); [lia|].
    destruct (lookup_lt_is_Some_2 (MARKER :: cand) p) as [prefix Hprefix];
      [simpl; lia|].
    destruct (lookup_lt_is_Some_2 (MARKER :: typo) (S p)) as [added Hadded];
      [simpl; lia|].
    rewrite log_channel_prob_longer by done.
    rewrite (insertion_loop_found self _ _ (S p) Hdiv) by (simpl; lia).
    rewrite (insertion_prob_at self _ _ _ _ _ Hprefix Hadded).
    pose proof (get0_ok _ (KPair prefix added) (ok_add _ Hok)).
    pose proof (get0_ok _ (KStr [prefix]) (ok_unigram _ Hok)).
    apply log_ratio_returns; [lia|]. case_bool_decide; lia.
Qed.

Lemma score_loop_returns (word : str) (cands : list str) :
  ∀ scored, ∃ d, score_loop self word cands scored = Ret d.
Proof.
  induction cands as [|cand cands IH]; intros scored; simpl; [by eexists|].
  destruct (log_prior_prob_returns cand) as [lp ->].
  destruct (log_channel_prob_returns word cand) as [lc ->].
  simpl. apply IH.
Qed.

End Totality.

Lemma demo_log_ratio : log_ratio_law Demo.runtime.
Proof.
  intros a b Ha Hb. exists (Demo.XQuot a b), (Demo.XLog (Z.abs a) (Z.abs b)).
  split; [done|]. simpl.
  destruct (Z.ltb_spec 0 (a * b)) as [_|?]; [done|nia].
Qed.

Lemma demo_table_ok (d : gmap pykey Z) :
  bool_decide (map_Forall (fun _ v => 0 <= v < COUNT_MAX) d) = true -> table_ok d.
Proof. intros Hd%bool_decide_eq_true_1. exact Hd. Qed.

Lemma demo_corrector_ok : corrector_ok Demo.corrector.
Proof.
  split; try (apply demo_table_ok; by vm_compute); by vm_compute.
Qed.

(** C7, as the code has it.  [correct] returns a string for every input
    string, and raises nothing, on a corrector whose counts are non-negative
    and whose three totals (words, unigrams, bigrams) are positive, all within
    the range in which a quotient of counts is an ordinary positive float. *)
Theorem correct_total `{RT : PyRuntime} (self : SpellingCorrector) (w : str) :
  log_ratio_law RT ->
  corrector_ok self ->
  ∃ s, correct self w = Ret s.
Proof.
  intros Hlog Hok. unfold correct.
  case_bool_decide; [by eexists|].
  case_bool_decide; [by eexists|].
  destruct (score_loop_returns self Hlog Hok (str_lower w)
              (set_iter (generate_candidates self (str_lower w))) [])
    as [[|[k v] items] ->]; simpl; by eexists.
Qed.

Lemma correct_total_witness :
  log_ratio_law Demo.runtime ∧ corrector_ok Demo.corrector ∧
  ∃ s, correct Demo.corrector (str_of "Hapy") = Ret s.
Proof.
  split; [exact demo_log_ratio|]. split; [exact demo_corrector_ok|].
  exact (correct_total Demo.corrector (str_of "Hapy") demo_log_ratio
           demo_corrector_ok).
Defined.

(** C7, as stated, fails: a corrector constructed from files in which one
    substitution count is [-1] has positive totals, and [correct] raises on
    ['xb']: the smoothed numerator of the substitution is zero, and
    [math.log] of a zero quotient is a [ValueError]. *)
Lemma correct_raises_on_negative_count :
  Negative.construct = Ret Negative.corrector ∧
  0 < total_word_count Negative.corrector ∧
  0 < total_unigram_count Negative.corrector ∧
  0 < total_bigram_count Negative.corrector ∧
  correct Negative.corrector (str_of "xb") = Raise ValueError.
Proof.
  split; [vm_compute; reflexivity|].
  repeat (split; [reflexivity|]).
  vm_compute. reflexivity.
Qed.

(** The total word count has to be positive: it is the divisor of the
    transposition branch. *)
Example correct_zero_word_total :
  correct Demo.unseen_words (str_of "ba") = Raise ZeroDivisionError.
Proof. vm_compute. reflexivity. Qed.

(** ** Construction *)

Section LoadingFacts.
Context {IO : PyIO}.
Variable fs : filesystem.

Lemma load_counts_unreadable (path : str) (e : exn) (key_cols : list str)
    (is_vocab : bool) :
  fs path = Raise e ->
  load_counts fs path key_cols is_vocab = Raise (open_failure e).
Proof. intros Hopen. unfold load_counts. rewrite Hopen. by destruct e. Qed.

Lemma init_unreadable (p1 p2 p3 p4 p5 p6 p : str) (e : exn) :
  p ∈ [p1; p2; p3; p4; p5; p6] -> fs p = Raise e ->
  ∃ e', init fs p1 p2 p3 p4 p5 p6 = Raise e'.
Proof.
  intros Hp Hopen. unfold init.
  pose proof (fun cols v => load_counts_unreadable p e cols v Hopen) as Hload.
  repeat match goal with
  | |- context [load_counts fs ?q ?cols ?v] =>
      let E := fresh "E" in
      destruct (load_counts fs q cols v) eqn:E; simpl; [|by eexists]
  end.
  repeat (apply elem_of_cons in Hp as [->|Hp]; [congruence|]).
  by apply elem_of_nil in Hp.
Qed.

(** A constructed corrector has the alphabet of the twenty-six letters, the
    keys of the word table as its vocabulary and the sums of the tables as
    its totals. *)
Lemma init_fields (p1 p2 p3 p4 p5 p6 : str) (c : SpellingCorrector) :
  init fs p1 p2 p3 p4 p5 p6 = Ret c ->
  alphabet c = ALPHABET ∧ vocabulary c = dom (vocab c) ∧
  total_word_count c = sum_values (vocab c) ∧
  total_unigram_count c = sum_values (unigram_counts c) ∧
  total_bigram_count c = sum_values (bigram_counts c).
Proof.
  unfold init.
  repeat match goal with
  | |- context [load_counts fs ?q ?cols ?v] =>
      destruct (load_counts fs q cols v); simpl; [|done]
  end.
  by intros [= <-].
Qed.
End LoadingFacts.

(** C9, as the code has it.  When one of the six sources cannot be opened,
    construction returns no corrector: it raises.  The loader turns a missing
    file into an exit of the program with status 1 and lets any other
    exception of [open] pass through. *)
Theorem init_unreadable_source `{IO : PyIO} (fs : filesystem)
    (p1 p2 p3 p4 p5 p6 p : str) (e : exn) :
  p ∈ [p1; p2; p3; p4; p5; p6] ->
  fs p = Raise e ->
  (∀ key_cols is_vocab,
     load_counts fs p key_cols is_vocab = Raise (open_failure e)) ∧
  ∃ e', init fs p1 p2 p3 p4 p5 p6 = Raise e'.
Proof.
  intros Hp Hopen. split.
  - intros key_cols is_vocab. by apply load_counts_unreadable.
  - by apply (init_unreadable fs p1 p2 p3 p4 p5 p6 p e).
Qed.

Lemma init_unreadable_source_witness :
  Demo.fs_missing (str_of "data/bigrams.csv") = Raise FileNotFoundError ∧
  (∀ key_cols is_vocab,
     load_counts Demo.fs_missing (str_of "data/bigrams.csv") key_cols is_vocab
     = Raise (SystemExit 1)) ∧
  ∃ e', Demo.construct Demo.fs_missing = Raise e'.
Proof.
  split; [reflexivity|].
  apply (init_unreadable_source Demo.fs_missing
           (str_of "data/unigrams.csv") (str_of "data/bigrams.csv")
           (str_of "data/substitutions.csv") (str_of "data/deletions.csv")
           (str_of "data/additions.csv") (str_of "data/word_frequencies.txt")
           (str_of "data/bigrams.csv") FileNotFoundError).
  - by_compute.
  - reflexivity.
Defined.

(** C9, as stated, fails: with the bigram table missing, construction ends
    with [SystemExit(1)], which is not a [DataLoadError]. *)
Lemma init_missing_file_exits :
  Demo.fs_missing (str_of "data/bigrams.csv") = Raise FileNotFoundError ∧
  Demo.construct Demo.fs_missing = Raise (SystemExit 1) ∧
  Demo.construct Demo.fs_missing ≠ Raise DataLoadError.
Proof.
  split; [reflexivity|].
  assert (Demo.construct Demo.fs_missing = Raise (SystemExit 1)) as Hexit
    by (vm_compute; reflexivity).
  split; [exact Hexit|]. rewrite Hexit. discriminate.
Qed.

(** * Further properties *)

(** ** Candidates *)

Lemma one_edit_length (alpha w x : str) :
  one_edit alpha w x ->
  (length x <= length w + 1)%nat ∧ (length w <= length x + 1)%nat.
Proof.
  intros [L c R ->|L a b R ->|L a c R -> _|L c R -> _];
    rewrite !length_app; simpl; lia.
Qed.

Lemma one_edit_sym (alpha w x : str) :
  over_alphabet alpha w -> one_edit alpha w x -> one_edit alpha x w.
Proof.
  intros Hw [L c R ->|L a b R ->|L a c R -> Hc|L c R -> Hc].
  - apply Forall_app in Hw as [_ Hw]. apply Forall_cons in Hw as [Hc _].
    by apply (edit_insert _ _ L c R).
  - by apply (edit_transpose _ _ L b a R).
  - apply Forall_app in Hw as [_ Hw]. apply Forall_cons in Hw as [Ha _].
    by apply (edit_substitute _ _ L c a R).
  - by apply (edit_delete _ _ L c R).
Qed.

(** The lengths of a word and of any of its candidates differ by one at
    most. *)
Theorem generate_candidates_length (self : SpellingCorrector) (w x : str) :
  x ∈ generate_candidates self w ->
  (length x <= length w + 1)%nat ∧ (length w <= length x + 1)%nat.
Proof.
  intros [_ Hedit]%elem_of_generate_candidates.
  by apply (one_edit_length (alphabet self)).
Qed.

Lemma generate_candidates_length_witness :
  str_of "cake" ∈ generate_candidates Demo.corrector (str_of "cak") ∧
  (length (str_of "cake") <= length (str_of "cak") + 1)%nat ∧
  (length (str_of "cak") <= length (str_of "cake") + 1)%nat.
Proof.
  assert (str_of "cake" ∈ generate_candidates Demo.corrector (str_of "cak")) as Hin.
  { apply elem_of_generate_candidates. split; [by_compute|].
    apply (edit_insert _ _ (str_of "cak") (chr "e") []); [done|by_compute]. }
  split; [done|].
  exact (generate_candidates_length Demo.corrector (str_of "cak") (str_of "cake") Hin).
Defined.

(** Candidate generation is symmetric between vocabulary words written in the
    alphabet: when [x] is a candidate for such a word [w], [w] is a candidate
    for [x]. *)
Theorem generate_candidates_sym (self : SpellingCorrector) (w x : str) :
  over_alphabet (alphabet self) w ->
  KStr w ∈ vocabulary self ->
  x ∈ generate_candidates self w ->
  w ∈ generate_candidates self x.
Proof.
  intros Hw Hvocab [_ Hedit]%elem_of_generate_candidates.
  apply elem_of_generate_candidates. split; [done|].
  by apply one_edit_sym.
Qed.

Lemma generate_candidates_sym_witness :
  str_of "no" ∈ generate_candidates Demo.corrector (str_of "on").
Proof.
  apply (generate_candidates_sym Demo.corrector (str_of "no") (str_of "on")).
  - repeat constructor; by_compute.
  - by_compute.
  - apply elem_of_generate_candidates. split; [by_compute|].
    by apply (edit_transpose _ _ [] (chr "n") (chr "o") []).
Defined.

Lemma one_edit_same (alpha w x : str) :
  one_edit alpha w x -> x = w ->
  (∃ L a R, w = L ++ a :: R ∧ a ∈ alpha) ∨ (∃ L a R, w = L ++ a :: a :: R).
Proof.
  intros [L c R ->|L a b R ->|L a c R -> Hc|L c R -> Hc] Heq;
    apply app_inv_head in Heq.
  - apply (f_equal length) in Heq. simpl in Heq. lia.
  - injection Heq as ->. right. by exists L, a, R.
  - injection Heq as ->. left. by exists L, a, R.
  - apply (f_equal length) in Heq. simpl in Heq. lia.
Qed.

(** A word is among its own candidates exactly when it is in the vocabulary
    and either holds a letter of the alphabet (substituted by itself) or holds
    the same character twice in a row (transposed): the generated words are
    not all different from the probe word. *)
Theorem generate_candidates_self (self : SpellingCorrector) (w : str) :
  w ∈ generate_candidates self w ↔
  KStr w ∈ vocabulary self ∧
  ((∃ L a R, w = L ++ a :: R ∧ a ∈ alphabet self) ∨
   (∃ L a R, w = L ++ a :: a :: R)).
Proof.
  rewrite elem_of_generate_candidates. split; intros [Hv Hw]; (split; [done|]).
  - by apply (one_edit_same (alphabet self) w w).
  - destruct Hw as [(L & a & R & Hw & Ha)|(L & a & R & Hw)].
    + rewrite Hw at 2. by apply (edit_substitute _ _ L a a R).
    + rewrite Hw at 2. by apply (edit_transpose _ _ L a a R).
Qed.

(** ** The channel model on candidates *)

Section ChannelOnCandidates.
Context {RT : PyRuntime}.
Variable self : SpellingCorrector.

(** Identical strings have no differing position: the channel model answers
    minus infinity. *)
Theorem log_channel_prob_same (w : str) :
  log_channel_prob self w w = Ret neg_inf.
Proof.
  rewrite (log_channel_prob_equal self w w eq_refl).
  by rewrite mismatches_refl.
Qed.

Lemma log_channel_prob_shorter_formula (typo cand : str) :
  (length typo < length cand)%nat ->
  ∃ (p : nat) (prefix deleted : char),
    first_divergence (MARKER :: typo) (MARKER :: cand) (S p) ∧
    (MARKER :: cand) !! p = Some prefix ∧
    (MARKER :: cand) !! S p = Some deleted ∧
    log_channel_prob self typo cand
    = log_ratio (get0 (del_counts self) (KPair prefix deleted) + 1)
        (get0 (bigram_counts self) (KStr [prefix; deleted])
         + total_bigram_count self).
Proof.
  intros Hlen.
  destruct (marked_divergence typo cand) as (p & Hdiv & Hpt & Hpc); [lia|].
  destruct (lookup_lt_is_Some_2 (MARKER :: cand) p) as [prefix Hprefix];
    [simpl; lia|].
  destruct (lookup_lt_is_Some_2 (MARKER :: cand) (S p)) as [deleted Hdeleted];
    [simpl; lia|].
  exists p, prefix, deleted. split; [done|]. split; [done|]. split; [done|].
  rewrite log_channel_prob_shorter by done.
  rewrite (deletion_loop_found self _ _ (S p) Hdiv) by (simpl; lia).
  by rewrite (deletion_prob_at self _ _ _ _ Hprefix Hdeleted).
Qed.

Lemma log_channel_prob_longer_formula (typo cand : str) :
  (length cand < length typo)%nat ->
  ∃ (p : nat) (prefix added : char),
    first_divergence (MARKER :: typo) (MARKER :: cand) (S p) ∧
    (MARKER :: cand) !! p = Some prefix ∧
    (MARKER :: typo) !! S p = Some added ∧
    log_channel_prob self typo cand
    = log_ratio (get0 (add_counts self) (KPair prefix added) + 1)
        (insertion_context self prefix + total_unigram_count self).
Proof.
  intros Hlen.
  destruct (marked_divergence typo cand) as (p & Hdiv & Hpt & Hpc); [lia|].
  destruct (lookup_lt_is_Some_2 (MARKER :: cand) p) as [prefix Hprefix];
    [simpl; lia|].
  destruct (lookup_lt_is_Some_2 (MARKER :: typo) (S p)) as [added Hadded];
    [simpl; lia|].
  exists p, prefix, added. split; [done|]. split; [done|]. split; [done|].
  rewrite log_channel_prob_longer by done.
  rewrite (insertion_loop_found self _ _ (S p) Hdiv) by (simpl; lia).
  by rewrite (insertion_prob_at self _ _ _ _ _ Hprefix Hadded).
Qed.

Lemma lookup_middle_ne (L R : str) (a c : char) (j : nat) :
  j ≠ length L -> (L ++ a :: R) !! j = (L ++ c :: R) !! j.
Proof.
  intros Hj. destruct (decide (j < length L)%nat).
  - by rewrite !lookup_app_l by done.
  - rewrite !lookup_app_r by lia.
    by destruct (j - length L)%nat as [|k] eqn:Hk; [lia|].
Qed.

Lemma substitution_marked (L R : str) (a c : char) :
  a ≠ c ->
  one_substitution (MARKER :: L ++ a :: R) (MARKER :: L ++ c :: R)
    (S (length L)) a c.
Proof.
  intros Hac. repeat split; simpl; try done.
  - by apply list_lookup_middle.
  - by apply list_lookup_middle.
  - intros [|j] Hj; simpl; [done|]. apply lookup_middle_ne. lia.
Qed.

Lemma transposition_marked (L R : str) (a b : char) :
  a ≠ b ->
  one_transposition (MARKER :: L ++ a :: b :: R) (MARKER :: L ++ b :: a :: R)
    (S (length L)).
Proof.
  intros Hab. exists a, b. split; [done|]. simpl.
  split; [by apply list_lookup_middle|].
  split; [by rewrite lookup_app_r, Nat.sub_succ_l, Nat.sub_diag by lia|].
  split; [by apply list_lookup_middle|].
  split; [by rewrite lookup_app_r, Nat.sub_succ_l, Nat.sub_diag by lia|].
  intros [|j] Hj Hj'; simpl; [done|].
  destruct (decide (j < length L)%nat).
  - by rewrite !lookup_app_l by done.
  - rewrite !lookup_app_r by lia.
    destruct (j - length L)%nat as [|[|k]] eqn:Hk; [lia|lia|done].
Qed.

(** The final [return -float('inf')] "should not happen with edit distance
    1".  For a word and a different word one edit away from it the channel
    model returns the formula of the edit, on the strings prefixed with the
    marker: when the candidate is longer, the deletion formula at their first
    divergence; when it is shorter, the insertion formula at their first
    divergence; when they differ at one position, the substitution formula of
    the two characters there; when two adjacent characters are swapped,
    [log(1 / total_word_count)]. *)
Theorem log_channel_prob_classified (alpha word cand : str) :
  one_edit alpha word cand ->
  cand ≠ word ->
  (∃ (p : nat) (prefix deleted : char),
     (length word < length cand)%nat ∧
     first_divergence (MARKER :: word) (MARKER :: cand) (S p) ∧
     (MARKER :: cand) !! p = Some prefix ∧
     (MARKER :: cand) !! S p = Some deleted ∧
     log_channel_prob self word cand
     = log_ratio (get0 (del_counts self) (KPair prefix deleted) + 1)
         (get0 (bigram_counts self) (KStr [prefix; deleted])
          + total_bigram_count self)) ∨
  (∃ (p : nat) (prefix added : char),
     (length cand < length word)%nat ∧
     first_divergence (MARKER :: word) (MARKER :: cand) (S p) ∧
     (MARKER :: cand) !! p = Some prefix ∧
     (MARKER :: word) !! S p = Some added ∧
     log_channel_prob self word cand
     = log_ratio (get0 (add_counts self) (KPair prefix added) + 1)
         (insertion_context self prefix + total_unigram_count self)) ∨
  (∃ (i : nat) (t c : char),
     one_substitution (MARKER :: word) (MARKER :: cand) i t c ∧
     log_channel_prob self word cand
     = log_ratio (get0 (sub_counts self) (KPair c t) + 1)
         (get0 (unigram_counts self) (KStr [c]) + total_unigram_count self)) ∨
  (∃ i : nat,
     one_transposition (MARKER :: word) (MARKER :: cand) i ∧
     log_channel_prob self word cand = log_ratio 1 (total_word_count self)).
Proof.
  intros [L c R ->|L a b R ->|L a c R -> Hc|L c R -> Hc] Hne.
  - right; left.
    destruct (log_channel_prob_longer_formula (L ++ c :: R) (L ++ R))
      as (p & prefix & added & Hdiv & Hprefix & Hadded & Hprob).
    { rewrite !length_app. simpl. lia. }
    exists p, prefix, added. repeat split; try done; try apply Hdiv.
    rewrite !length_app. simpl. lia.
  - right; right; right.
    assert (a ≠ b) as Hab by (intros ->; by apply Hne).
    assert (length (L ++ a :: b :: R) = length (L ++ b :: a :: R)) as Hlen
      by (by rewrite !length_app).
    pose proof (transposition_marked L R a b Hab) as Htr.
    exists (S (length L)). split; [done|].
    rewrite (log_channel_prob_equal self _ _ Hlen).
    destruct (mismatches_transposition 0 _ _ _ Htr) as (x & y & Hxy & ->).
    by rewrite Z.eqb_refl, !bool_decide_eq_true_2.
  - right; right; left.
    assert (a ≠ c) as Hac by (intros ->; by apply Hne).
    assert (length (L ++ a :: R) = length (L ++ c :: R)) as Hlen
      by (by rewrite !length_app).
    pose proof (substitution_marked L R a c Hac) as Hsub.
    exists (S (length L)), a, c. split; [done|].
    rewrite (log_channel_prob_equal self _ _ Hlen).
    by rewrite (mismatches_substitution 0 _ _ _ _ _ Hsub).
  - left.
    destruct (log_channel_prob_shorter_formula (L ++ R) (L ++ c :: R))
      as (p & prefix & deleted & Hdiv & Hprefix & Hdeleted & Hprob).
    { rewrite !length_app. simpl. lia. }
    exists p, prefix, deleted. repeat split; try done; try apply Hdiv.
    rewrite !length_app. simpl. lia.
Qed.
End ChannelOnCandidates.

Lemma log_channel_prob_classified_witness :
  one_edit ALPHABET (str_of "cak") (str_of "cake") ∧
  str_of "cake" ≠ str_of "cak" ∧
  ∃ (p : nat) (prefix deleted : char),
    first_divergence (MARKER :: str_of "cak") (MARKER :: str_of "cake") (S p) ∧
    (MARKER :: str_of "cake") !! p = Some prefix ∧
    (MARKER :: str_of "cake") !! S p = Some deleted ∧
    log_channel_prob Demo.corrector (str_of "cak") (str_of "cake")
    = log_ratio (get0 (del_counts Demo.corrector) (KPair prefix deleted) + 1)
        (get0 (bigram_counts Demo.corrector) (KStr [prefix; deleted])
         + total_bigram_count Demo.corrector).
Proof.
  assert (one_edit ALPHABET (str_of "cak") (str_of "cake")) as Hedit.
  { apply (edit_insert _ _ (str_of "cak") (chr "e") []); [done|by_compute]. }
  assert (str_of "cake" ≠ str_of "cak") as Hne by done.
  split; [done|]. split; [done|].
  destruct (log_channel_prob_classified Demo.corrector ALPHABET (str_of "cak")
              (str_of "cake") Hedit Hne)
    as [(p & prefix & deleted & _ & Hdiv & Hprefix & Hdeleted & Hprob)
       |[(p & prefix & added & Hlen & _)
        |[(i & t & c & (Ht & _ & _ & Hrest) & _)
         |(i & (a & b & _ & _ & Hb & _ & _ & Hrest) & _)]]].
  - by exists p, prefix, deleted.
  - simpl in Hlen. lia.
  - destruct (decide (i = 4%nat)) as [->|Hi]; [done|].
    by specialize (Hrest 4%nat ltac:(lia)).
  - apply lookup_lt_Some in Hb. simpl in Hb.
    by specialize (Hrest 4%nat ltac:(lia) ltac:(lia)).
Defined.

(** ** The decision of [correct] *)

Lemma dict_set_elem {V : Type} (d : list (str * V)) (k k' : str) (v v' : V) :
  (k', v') ∈ dict_set d k v -> (k', v') = (k, v) ∨ (k', v') ∈ d.
Proof.
  induction d as [|[k0 v0] d IH]; simpl.
  - intros ->%list_elem_of_singleton. by left.
  - case_decide as Hk; subst.
    + intros [->|Hin]%elem_of_cons; [by left|]. right. by right.
    + intros [->|Hin]%elem_of_cons; [right; by left|].
      destruct (IH Hin) as [?|?]; [by left|]. right. by right.
Qed.

Lemma dict_set_key {V : Type} (d : list (str * V)) (k c : str) (v : V) :
  (c = k ∨ ∃ v0, (c, v0) ∈ d) -> ∃ v', (c, v') ∈ dict_set d k v.
Proof.
  induction d as [|[k0 v0] d IH]; simpl.
  - intros [->|[? []%elem_of_nil]]. exists v. by left.
  - case_decide as Hk; subst.
    + intros [->|[v1 [Heq|Hin]%elem_of_cons]].
      * exists v. by left.
      * injection Heq as -> ->. exists v. by left.
      * exists v1. by right.
    + intros [->|[v1 [Heq|Hin]%elem_of_cons]].
      * destruct IH as [v' Hv']; [by left|]. exists v'. by right.
      * injection Heq as -> ->. exists v0. by left.
      * destruct IH as [v' Hv']; [right; by exists v1|]. exists v'. by right.
Qed.

Section Decision.
Context {RT : PyRuntime}.
Variable self : SpellingCorrector.

(** What the scoring loop leaves in the dictionary: every entry is a word of
    the loop, or an entry that was there, with the score of the word; and
    every word of the loop has an entry. *)
Lemma score_loop_entries (word : str) (cands : list str) :
  ∀ scored d,
    score_loop self word cands scored = Ret d ->
    (∀ k v, (k, v) ∈ scored -> candidate_score self word k = Ret v) ->
    (∀ k v, (k, v) ∈ d ->
       candidate_score self word k = Ret v ∧
       (k ∈ cands ∨ (k, v) ∈ scored)) ∧
    (∀ c, (c ∈ cands ∨ ∃ v, (c, v) ∈ scored) -> ∃ v, (c, v) ∈ d).
Proof.
  induction cands as [|cand cands IH]; intros scored d; simpl.
  - intros [= <-] Hscored. split.
    + intros k v Hin. split; [by apply Hscored|by right].
    + intros c [[]%elem_of_nil|Hc]. done.
  - destruct (log_prior_prob self cand) as [lp|] eqn:Hlp; [|done].
    destruct (log_channel_prob self word cand) as [lc|] eqn:Hlc; [|done].
    simpl. intros Hloop Hscored.
    assert (candidate_score self word cand = Ret (float_add lp lc)) as Hscore
      by (unfold candidate_score; by rewrite Hlp, Hlc).
    destruct (IH _ _ Hloop) as [Hentries Hkeys].
    { intros k v [[= -> ->]|Hin]%dict_set_elem; [done|by apply Hscored]. }
    split.
    + intros k v Hin. destruct (Hentries k v Hin) as [Hk [Hc|Hd]].
      * split; [done|]. left. by right.
      * split; [done|].
        apply dict_set_elem in Hd as [[= -> ->]|Hd]; [left; by left|by right].
    + intros c [[->|Hc]%elem_of_cons|Hc]; apply Hkeys.
      * right. apply dict_set_key. by left.
      * by left.
      * right. apply dict_set_key. by right.
Qed.

(** [max]: the key returned holds a value that no value of the dictionary
    exceeds. *)
Lemma max_loop_greatest (Hgt : float_gt_law RT) (items : list (str * float)) :
  ∀ best best_key,
    ∃ v, ((max_loop best best_key items, v) = (best, best_key) ∨
          (max_loop best best_key items, v) ∈ items) ∧
         (v = best_key ∨ float_gt v best_key = true) ∧
         ∀ k' v', (k', v') ∈ items -> float_gt v' v = false.
Proof.
  destruct Hgt as [Hirrefl Htrans].
  induction items as [|[k1 v1] items IH]; intros best best_key; simpl.
  - exists best_key. split; [by left|]. split; [by left|].
    by intros k' v' []%elem_of_nil.
  - destruct (float_gt v1 best_key) eqn:Hcmp.
    + destruct (IH k1 v1) as (v & Hin & Hge & Hmax). exists v.
      assert (float_gt v best_key = true) as Hv.
      { destruct Hge as [->|Hge]; [done|]. by apply (Htrans v v1 best_key). }
      split; [right; destruct Hin as [->|Hin]; [by left|by right]|].
      split; [by right|].
      intros k' v' [[= -> ->]|Hin']%elem_of_cons; [|by apply (Hmax k')].
      destruct Hge as [->|Hge]; [by apply Hirrefl|].
      destruct (float_gt v1 v) eqn:Hcontra; [|done].
      pose proof (Htrans v v1 v Hge Hcontra) as Hvv.
      by rewrite Hirrefl in Hvv.
    + destruct (IH best best_key) as (v & Hin & Hge & Hmax). exists v.
      split; [destruct Hin as [Hin|Hin]; [by left|right; by right]|].
      split; [done|].
      intros k' v' [[= -> ->]|Hin']%elem_of_cons; [|by apply (Hmax k')].
      destruct Hge as [->|Hge]; [done|].
      destruct (float_gt v1 v) eqn:Hcontra; [|done].
      by rewrite (Htrans v1 v best_key Hcontra Hge) in Hcmp.
Qed.

Lemma max_by_value_greatest (Hgt : float_gt_law RT) (d : list (str * float))
    (s : str) :
  max_by_value d = Ret s ->
  ∃ v, (s, v) ∈ d ∧ ∀ k' v', (k', v') ∈ d -> float_gt v' v = false.
Proof.
  destruct d as [|[k0 v0] items]; simpl; [done|]. intros [= <-].
  destruct (max_loop_greatest Hgt items k0 v0) as (v & Hin & Hge & Hmax).
  exists v. split.
  - destruct Hin as [->|Hin]; [by left|by right].
  - destruct Hgt as [Hirrefl Htrans].
    intros k' v' [[= -> ->]|Hin']%elem_of_cons; [|by apply (Hmax k')].
    destruct Hge as [->|Hge]; [by apply Hirrefl|].
    destruct (float_gt v0 v) eqn:Hcontra; [|done].
    pose proof (Htrans v v0 v Hge Hcontra) as Hvv.
    by rewrite Hirrefl in Hvv.
Qed.

Lemma max_by_value_member (d : list (str * float)) (s : str) :
  max_by_value d = Ret s -> ∃ v, (s, v) ∈ d.
Proof.
  destruct d as [|[k0 v0] items]; simpl; [done|]. intros [= <-].
  revert k0 v0. induction items as [|[k1 v1] items IH]; intros k0 v0; simpl.
  - exists v0. by left.
  - destruct (float_gt v1 v0).
    + destruct (IH k1 v1) as [v [Heq|Hin]%elem_of_cons].
      * exists v. right. rewrite Heq. by left.
      * exists v. right. by right.
    + destruct (IH k0 v0) as [v [Heq|Hin]%elem_of_cons].
      * exists v. rewrite Heq. by left.
      * exists v. right. by right.
Qed.
End Decision.

Section DecisionFacts.
Context {RT : PyRuntime}.
Variable self : SpellingCorrector.
Hypothesis Hiter : set_iter_law RT.

(** With the word outside the vocabulary and some candidate, [correct]
    answers with the maximum of the scored candidates. *)
Lemma correct_scored (w s : str) :
  KStr (str_lower w) ∉ vocabulary self ->
  generate_candidates self (str_lower w) ≠ ∅ ->
  correct self w = Ret s ->
  ∃ d, score_loop self (str_lower w)
         (set_iter (generate_candidates self (str_lower w))) [] = Ret d ∧
       max_by_value d = Ret s.
Proof.
  intros Hnotin Hcands. unfold correct.
  rewrite !bool_decide_eq_false_2 by done.
  destruct (score_loop self (str_lower w)
              (set_iter (generate_candidates self (str_lower w))) [])
    as [d|] eqn:Hloop; simpl; [|done].
  destruct d as [|entry d]; [|by exists (entry :: d)].
  apply set_choose_L in Hcands as [c Hc].
  destruct (score_loop_entries self _ _ _ _ Hloop) as [_ Hkeys].
  { by intros k v []%elem_of_nil. }
  destruct (Hkeys c) as [v []%elem_of_nil]. left. by apply Hiter.
Qed.

Lemma correct_cases (w s : str) :
  correct self w = Ret s ->
  s = w ∨ (KStr (str_lower w) ∈ vocabulary self ∧ s = str_lower w) ∨
  ((KStr (str_lower w) ∉ vocabulary self) ∧
   s ∈ generate_candidates self (str_lower w)).
Proof.
  intros Hcorrect.
  destruct (decide (KStr (str_lower w) ∈ vocabulary self)) as [Hin|Hnotin].
  { right; left. split; [done|]. unfold correct in Hcorrect.
    rewrite bool_decide_eq_true_2 in Hcorrect by done. congruence. }
  destruct (decide (generate_candidates self (str_lower w) = ∅)) as [Hempty|Hcands].
  { left. unfold correct in Hcorrect.
    rewrite bool_decide_eq_false_2 in Hcorrect by done.
    rewrite bool_decide_eq_true_2 in Hcorrect by done. congruence. }
  right; right. split; [done|].
  destruct (correct_scored w s Hnotin Hcands Hcorrect) as (d & Hloop & Hmax).
  destruct (max_by_value_member d s Hmax) as [v Hv].
  destruct (score_loop_entries self _ _ _ _ Hloop) as [Hentries _].
  { by intros k v' []%elem_of_nil. }
  destruct (Hentries s v Hv) as [_ [Hs|[]%elem_of_nil]]. by apply Hiter.
Qed.
End DecisionFacts.

Lemma demo_set_iter : set_iter_law Demo.runtime.
Proof. intros X x. apply elem_of_elements. Qed.

Lemma exact_set_iter : set_iter_law Exact.runtime.
Proof. intros X x. apply elem_of_elements. Qed.

Lemma exact_float_gt : float_gt_law Exact.runtime.
Proof.
  split.
  - intros [a b|n d| |]; simpl; try done. apply Pos.ltb_irrefl.
  - intros [a b|n d| |] [a' b'|n' d'| |] [a'' b''|n'' d''| |]; simpl; try done.
    rewrite !Pos.ltb_lt. nia.
Qed.

(** What [correct] answers is the input itself or a vocabulary word: the
    lowercased input, or a word one edit away from the lowercased input. *)
Theorem correct_result `{RT : PyRuntime} (self : SpellingCorrector) (w s : str) :
  set_iter_law RT ->
  correct self w = Ret s ->
  s = w ∨
  (KStr s ∈ vocabulary self ∧
   (s = str_lower w ∨ one_edit (alphabet self) (str_lower w) s)).
Proof.
  intros Hiter Hcorrect.
  destruct (correct_cases self Hiter w s Hcorrect) as [->|[[Hin ->]|[_ Hs]]].
  - by left.
  - right. split; [done|by left].
  - right. apply elem_of_generate_candidates in Hs as [Hvocab Hedit].
    split; [done|by right].
Qed.

Lemma correct_result_witness :
  correct Demo.corrector (str_of "cak") = Ret (str_of "cake") ∧
  (str_of "cake" = str_of "cak" ∨
   (KStr (str_of "cake") ∈ vocabulary Demo.corrector ∧
    (str_of "cake" = str_lower (str_of "cak") ∨
     one_edit (alphabet Demo.corrector) (str_lower (str_of "cak")) (str_of "cake")))).
Proof.
  split; [exact correct_cak|].
  exact (correct_result Demo.corrector (str_of "cak") (str_of "cake")
           demo_set_iter correct_cak).
Defined.

(** The answer of [correct] for a word outside the vocabulary is a candidate
    whose score no candidate's score exceeds. *)
Theorem correct_best_score `{RT : PyRuntime} (self : SpellingCorrector)
    (w s c : str) :
  set_iter_law RT ->
  float_gt_law RT ->
  KStr (str_lower w) ∉ vocabulary self ->
  c ∈ generate_candidates self (str_lower w) ->
  correct self w = Ret s ->
  s ∈ generate_candidates self (str_lower w) ∧
  ∃ vs vc,
    candidate_score self (str_lower w) s = Ret vs ∧
    candidate_score self (str_lower w) c = Ret vc ∧
    float_gt vc vs = false.
Proof.
  intros Hiter Hgt Hnotin Hc Hcorrect.
  assert (generate_candidates self (str_lower w) ≠ ∅) as Hcands.
  { intros Hempty. rewrite Hempty in Hc. by apply not_elem_of_empty in Hc. }
  destruct (correct_scored self Hiter w s Hnotin Hcands Hcorrect)
    as (d & Hloop & Hmax).
  destruct (max_by_value_greatest Hgt d s Hmax) as (vs & Hs & Hgreatest).
  destruct (score_loop_entries self _ _ _ _ Hloop) as [Hentries Hkeys].
  { by intros k v []%elem_of_nil. }
  destruct (Hentries s vs Hs) as [Hscore [Hin|[]%elem_of_nil]].
  destruct (Hkeys c) as [vc Hvc]; [left; by apply Hiter|].
  split; [by apply Hiter|]. exists vs, vc. split; [done|]. split.
  - by apply (Hentries c vc).
  - by apply (Hgreatest c).
Qed.

Lemma exact_correct_o :
  correct (RT := Exact.runtime) Demo.corrector (str_of "o") = Ret (str_of "on").
Proof. vm_compute. reflexivity. Qed.

Lemma correct_best_score_witness :
  correct (RT := Exact.runtime) Demo.corrector (str_of "o") = Ret (str_of "on") ∧
  str_of "a" ∈ generate_candidates Demo.corrector (str_of "o") ∧
  str_of "on" ∈ generate_candidates Demo.corrector (str_of "o") ∧
  ∃ vs vc,
    candidate_score (RT := Exact.runtime) Demo.corrector (str_of "o") (str_of "on")
      = Ret vs ∧
    candidate_score (RT := Exact.runtime) Demo.corrector (str_of "o") (str_of "a")
      = Ret vc ∧
    float_gt (PyRuntime := Exact.runtime) vc vs = false.
Proof.
  assert (KStr (str_lower (PyRuntime := Exact.runtime) (str_of "o"))
          ∉ vocabulary Demo.corrector) as Hnotin by by_compute.
  assert (str_of "a" ∈ generate_candidates Demo.corrector
            (str_lower (PyRuntime := Exact.runtime) (str_of "o"))) as Hc.
  { apply elem_of_generate_candidates. split; [by_compute|].
    apply (edit_substitute _ _ [] (chr "o") (chr "a") []); [done|by_compute]. }
  split; [exact exact_correct_o|]. split; [exact Hc|].
  exact (correct_best_score (RT := Exact.runtime) Demo.corrector (str_of "o")
           (str_of "on") (str_of "a") exact_set_iter exact_float_gt
           Hnotin Hc exact_correct_o).
Defined.

(** Correcting twice changes nothing more, when the vocabulary holds
    lowercase words only: the answer of [correct] is answered with itself. *)
Theorem correct_idempotent `{RT : PyRuntime} (self : SpellingCorrector) (w s : str) :
  set_iter_law RT ->
  lowercase_vocabulary self ->
  correct self w = Ret s ->
  correct self s = Ret s.
Proof.
  intros Hiter Hlower Hcorrect.
  assert (KStr s ∈ vocabulary self -> correct self s = Ret s) as Hknown.
  { intros Hin. unfold correct. rewrite (Hlower s Hin).
    by rewrite bool_decide_eq_true_2. }
  destruct (correct_cases self Hiter w s Hcorrect) as [->|[[Hin ->]|[_ Hs]]].
  - done.
  - by apply Hknown.
  - apply Hknown. by apply elem_of_generate_candidates in Hs as [Hvocab _].
Qed.

Lemma demo_lowercase_vocabulary : lowercase_vocabulary Demo.corrector.
Proof.
  intros v Hv.
  assert (forallb (fun k => match k with
                            | KCell (Some u) => bool_decide (ascii_lower <$> u = u)
                            | _ => true
                            end) (elements (vocabulary Demo.corrector)) = true)
    as Hall by (vm_compute; reflexivity).
  rewrite forallb_forall in Hall.
  apply elem_of_elements, list_elem_of_In, Hall in Hv.
  by apply bool_decide_eq_true_1 in Hv.
Qed.

Lemma correct_idempotent_witness :
  correct Demo.corrector (str_of "cak") = Ret (str_of "cake") ∧
  correct Demo.corrector (str_of "cake") = Ret (str_of "cake").
Proof.
  split; [exact correct_cak|].
  exact (correct_idempotent Demo.corrector (str_of "cak") (str_of "cake")
           demo_set_iter demo_lowercase_vocabulary correct_cak).
Defined.

(** ** The prior of a constructed corrector *)

Lemma sum_permutation (l l' : list Z) :
  l ≡ₚ l' -> foldr Z.add 0 l = foldr Z.add 0 l'.
Proof. induction 1; simpl; lia. Qed.

Lemma sum_succ {A : Type} (f : A -> Z) (l : list A) :
  foldr Z.add 0 ((fun x => f x + 1) <$> l)
  = foldr Z.add 0 (f <$> l) + Z.of_nat (length l).
Proof.
  induction l as [|x l IH]; [done|].
  rewrite !fmap_cons. cbn [foldr length]. rewrite IH. lia.
Qed.

Lemma sum_member_le (l : list Z) (x : Z) :
  Forall (fun y => 0 <= y) l -> x ∈ l -> x <= foldr Z.add 0 l.
Proof.
  induction 1 as [|y l Hy Hl IH]; [by intros ?%elem_of_nil|].
  assert (0 <= foldr Z.add 0 l) as Hsum.
  { clear IH. induction Hl; simpl; lia. }
  simpl. intros [->|Hin]%elem_of_cons; [lia|]. specialize (IH Hin). lia.
Qed.

Lemma elements_dom_keys (m : gmap pykey Z) :
  elements (dom m) ≡ₚ (map_to_list m).*1.
Proof.
  apply NoDup_Permutation.
  - apply NoDup_elements.
  - apply NoDup_fst_map_to_list.
  - intros k. rewrite elem_of_elements, elem_of_dom, list_elem_of_fmap. split.
    + intros [v Hv]. exists (k, v). split; [done|]. by apply elem_of_map_to_list.
    + intros ([k' v] & -> & Hkv). exists v. by apply elem_of_map_to_list.
Qed.

Lemma smoothed_terms (m : gmap pykey Z) :
  (fun k => get0 m k + 1) <$> (map_to_list m).*1
  = (fun kv => kv.2 + 1) <$> map_to_list m.
Proof.
  rewrite <- list_fmap_compose. apply list_fmap_ext.
  intros i [k v] Hi. simpl.
  apply list_elem_of_lookup_2, elem_of_map_to_list in Hi.
  unfold get0. by rewrite Hi.
Qed.

Lemma smoothed_sum (m : gmap pykey Z) :
  foldr Z.add 0 ((fun k => get0 m k + 1) <$> elements (dom m))
  = sum_values m + Z.of_nat (size (dom m)).
Proof.
  rewrite (sum_permutation _ ((fun k => get0 m k + 1) <$> (map_to_list m).*1))
    by (by rewrite elements_dom_keys).
  rewrite smoothed_terms, (sum_succ snd), length_map_to_list, size_dom.
  done.
Qed.

(** The smoothed prior is a distribution over the vocabulary of a constructed
    corrector: the numerators [vocab[w] + 1] of all vocabulary words add up to
    the denominator [total_word_count + len(vocabulary)]. *)
Theorem prior_normalised `{IO : PyIO} (fs : filesystem)
    (p1 p2 p3 p4 p5 p6 : str) (c : SpellingCorrector) :
  init fs p1 p2 p3 p4 p5 p6 = Ret c ->
  smoothed_mass c = total_word_count c + Z.of_nat (size (vocabulary c)).
Proof.
  intros (_ & Hvocabulary & Htotal & _)%init_fields.
  unfold smoothed_mass. rewrite Hvocabulary, Htotal.
  apply smoothed_sum.
Qed.

Lemma prior_normalised_witness :
  Demo.construct Demo.fs = Ret Demo.corrector ∧
  smoothed_mass Demo.corrector
  = total_word_count Demo.corrector + Z.of_nat (size (vocabulary Demo.corrector)).
Proof.
  split; [exact construct_demo|].
  exact (prior_normalised Demo.fs _ _ _ _ _ _ Demo.corrector construct_demo).
Defined.

(** In a constructed corrector with non-negative word frequencies, the prior
    of a vocabulary word is a probability: its numerator is positive and at
    most the denominator. *)
Theorem prior_bounded `{IO : PyIO} (fs : filesystem)
    (p1 p2 p3 p4 p5 p6 : str) (c : SpellingCorrector) (w : str) :
  init fs p1 p2 p3 p4 p5 p6 = Ret c ->
  table_nonneg (vocab c) ->
  KStr w ∈ vocabulary c ->
  0 < get0 (vocab c) (KStr w) + 1
    <= total_word_count c + Z.of_nat (size (vocabulary c)).
Proof.
  intros (_ & Hvocabulary & Htotal & _)%init_fields Hnonneg Hw.
  assert (∀ k, 0 <= get0 (vocab c) k) as Hget.
  { intros k. unfold get0. destruct (vocab c !! k) as [v|] eqn:Hk; simpl; [|done].
    by apply (Hnonneg k). }
  split; [specialize (Hget (KStr w)); lia|].
  rewrite Hvocabulary, Htotal, <- smoothed_sum.
  apply sum_member_le.
  - apply Forall_fmap, Forall_forall. intros k _. simpl. specialize (Hget k). lia.
  - apply list_elem_of_fmap. exists (KStr w). split; [done|].
    apply elem_of_elements. by rewrite <- Hvocabulary.
Qed.

Lemma demo_vocab_nonneg : table_nonneg (vocab Demo.corrector).
Proof. intros k v Hk. by apply (ok_vocab _ demo_corrector_ok k). Qed.

Lemma prior_bounded_witness :
  KStr (str_of "cake") ∈ vocabulary Demo.corrector ∧
  0 < get0 (vocab Demo.corrector) (KStr (str_of "cake")) + 1
    <= total_word_count Demo.corrector
       + Z.of_nat (size (vocabulary Demo.corrector)).
Proof.
  assert (KStr (str_of "cake") ∈ vocabulary Demo.corrector) as Hin by by_compute.
  split; [done|].
  exact (prior_bounded Demo.fs _ _ _ _ _ _ Demo.corrector (str_of "cake")
           construct_demo demo_vocab_nonneg Hin).
Defined.

(** ** Loaded tables *)

Section LoaderFacts.
Context {IO : PyIO}.

Lemma load_vocab_app (pre rest : list str) :
  ∀ counts,
    load_vocab_lines (stream_of (pre ++ rest)) counts
    = (c ← load_vocab_lines (stream_of pre) counts;
       load_vocab_lines (stream_of rest) c).
Proof.
  induction pre as [|line pre IH]; intros counts; simpl; [done|].
  destruct (strip_split line) as [|p0 [|p1 [|p2 parts]]]; try apply IH.
  destruct (py_int (Some p1)) as [n|e]; simpl; [apply IH|done].
Qed.

Lemma load_vocab_untouched (post : list str) (w : str) :
  (∀ l f, l ∈ post -> strip_split l ≠ [w; f]) ->
  ∀ counts m,
    load_vocab_lines (stream_of post) counts = Ret m ->
    m !! KStr w = counts !! KStr w.
Proof.
  induction post as [|line post IH]; intros Hpost counts m; simpl.
  - by intros [= <-].
  - assert (∀ l f, l ∈ post -> strip_split l ≠ [w; f]) as Hpost'
      by (intros l f Hl; apply Hpost; by right).
    pose proof (Hpost line) as Hline.
    destruct (strip_split line) as [|p0 [|p1 [|p2 parts]]];
      try by apply IH.
    destruct (py_int (Some p1)) as [n|e]; simpl; [|done].
    intros Hload. rewrite (IH Hpost' _ _ Hload).
    apply lookup_insert_ne. intros [= ->]. by apply (Hline p1); [left|].
Qed.

(** A word that stands on several lines of the word-frequency file keeps the
    frequency of its last line: frequencies are overwritten, not added. *)
Theorem load_vocab_last_wins (pre post : list str) (line w f : str) (n : Z)
    (counts m : gmap pykey Z) :
  strip_split line = [w; f] ->
  py_int (Some f) = Ret n ->
  (∀ l f', l ∈ post -> strip_split l ≠ [w; f']) ->
  load_vocab_lines (stream_of (pre ++ line :: post)) counts = Ret m ->
  m !! KStr w = Some n.
Proof.
  intros Hline Hint Hpost. rewrite load_vocab_app.
  destruct (load_vocab_lines (stream_of pre) counts) as [c|e]; simpl; [|done].
  rewrite Hline, Hint. simpl. intros Hload.
  rewrite (load_vocab_untouched post w Hpost _ _ Hload).
  apply lookup_insert_eq.
Qed.

Lemma load_vocab_keys (lines : stream str) :
  ∀ counts m,
    load_vocab_lines lines counts = Ret m ->
    ∀ k, k ∈ dom m -> k ∈ dom counts ∨ ∃ w, k = KStr w.
Proof.
  induction lines as [|line lines IH|e]; intros counts m; simpl; [|..|done].
  - intros [= <-] k Hk. by left.
  - destruct (strip_split line) as [|p0 [|p1 [|p2 parts]]]; try by apply IH.
    destruct (py_int (Some p1)) as [n|e]; simpl; [|done].
    intros Hload k Hk. destruct (IH _ _ Hload k Hk) as [Hin|?]; [|by right].
    rewrite dom_insert_L in Hin.
    apply elem_of_union in Hin as [->%elem_of_singleton|Hin]; [|by left].
    right. by exists p0.
Qed.

Lemma load_csv_step (key_cols : list str) (r : row) (rows : stream row)
    (counts : gmap pykey Z) :
  load_csv_rows key_cols (SCons r rows) counts
  = (e ← row_entry key_cols r;
     load_csv_rows key_cols rows (<[e.1 := e.2]> counts)).
Proof.
  unfold row_entry. cbn [load_csv_rows]. unfold mbind, result_bind.
  destruct (key_tuple r key_cols) as [key|]; [|reflexivity].
  destruct (row_get r (str_of "count")) as [field|]; [|reflexivity].
  by destruct (py_int field).
Qed.

Lemma load_csv_dom (key_cols : list str) (rows : stream row) :
  ∀ counts m,
    load_csv_rows key_cols rows counts = Ret m -> dom counts ⊆ dom m.
Proof.
  induction rows as [|r rows IH|e]; intros counts m; [| |done].
  - by intros [= <-].
  - rewrite load_csv_step.
    destruct (row_entry key_cols r) as [[k n]|]; simpl; [|done].
    intros Hload%IH. rewrite dom_insert_L in Hload. set_solver.
Qed.

(** A table loaded from a CSV file holds the rows and nothing else: every row
    read gave a key and an integer count, the key is in the table, and every
    entry of the table that was not there before is the key and the count of
    some row.  A row without one of its columns or with a count that is not an
    integer leaves no table at all. *)
Theorem load_csv_rows_entries (key_cols : list str) (rows : stream row)
    (counts m : gmap pykey Z) :
  load_csv_rows key_cols rows counts = Ret m ->
  (∀ r, r ∈ stream_items rows ->
     ∃ k n, row_entry key_cols r = Ret (k, n) ∧ k ∈ dom m) ∧
  (∀ k n, m !! k = Some n ->
     counts !! k = Some n ∨
     ∃ r, r ∈ stream_items rows ∧ row_entry key_cols r = Ret (k, n)).
Proof.
  revert counts m.
  induction rows as [|r rows IH|e]; intros counts m; [| |done].
  - intros [= <-]. split; [by intros r ?%elem_of_nil|]. intros k n Hk. by left.
  - rewrite load_csv_step.
    destruct (row_entry key_cols r) as [[k0 n0]|] eqn:Hentry; simpl; [|done].
    intros Hload. destruct (IH _ _ Hload) as [Hrows Hentries]. split.
    + intros r' [->|Hr']%elem_of_cons.
      * exists k0, n0. split; [done|].
        apply (load_csv_dom _ _ _ _ Hload). rewrite dom_insert_L.
        apply elem_of_union. left. by apply elem_of_singleton.
      * by apply Hrows.
    + intros k n Hk. destruct (Hentries k n Hk) as [Hin|(r' & Hr' & Hentry')].
      * destruct (decide (k0 = k)) as [<-|Hne].
        -- rewrite lookup_insert_eq in Hin. injection Hin as <-.
           right. exists r. split; [by left|done].
        -- left. by rewrite lookup_insert_ne in Hin.
      * right. exists r'. split; [by right|done].
Qed.
End LoaderFacts.

Lemma load_vocab_last_wins_witness :
  ∃ m, load_vocab_lines
         (stream_of [str_of "cake 30"; str_of "cake 7"; str_of "a 1"]) ∅ = Ret m ∧
       m !! KStr (str_of "cake") = Some 7.
Proof.
  eexists. split; [vm_compute; reflexivity|].
  apply (load_vocab_last_wins [str_of "cake 30"] [str_of "a 1"] (str_of "cake 7")
           (str_of "cake") (str_of "7") 7 ∅).
  - reflexivity.
  - reflexivity.
  - intros l f' ->%list_elem_of_singleton. vm_compute. discriminate.
  - vm_compute. reflexivity.
Defined.

Lemma load_csv_rows_entries_witness :
  ∃ m, load_csv_rows [str_of "prefix"; str_of "deleted"]
         (csv_DictReader
            (Demo.text [Demo.ln "prefix,deleted,count"; Demo.ln "p,p,7"])) ∅
       = Ret m ∧
       ∀ k n, m !! k = Some n ->
         (∅ : gmap pykey Z) !! k = Some n ∨
         ∃ r, r ∈ stream_items
                    (csv_DictReader
                       (Demo.text [Demo.ln "prefix,deleted,count"; Demo.ln "p,p,7"])) ∧
              row_entry [str_of "prefix"; str_of "deleted"] r = Ret (k, n).
Proof.
  eexists. split; [vm_compute; reflexivity|].
  apply (load_csv_rows_entries [str_of "prefix"; str_of "deleted"]
           (csv_DictReader
              (Demo.text [Demo.ln "prefix,deleted,count"; Demo.ln "p,p,7"])) ∅).
  vm_compute. reflexivity.
Defined.

(** ** Keys of a constructed corrector *)

Section KeyShapes.
Context {IO : PyIO}.
Variable fs : filesystem.

Lemma key_tuple_length (r : row) (key_cols : list str) :
  ∀ key, key_tuple r key_cols = Ret key -> length key = length key_cols.
Proof.
  induction key_cols as [|col cols IH]; intros key; simpl.
  - by intros [= <-].
  - destruct (row_get r col) as [v|]; simpl; [|done].
    destruct (key_tuple r cols) as [vs|]; simpl; [|done].
    intros [= <-]. simpl. by rewrite (IH vs).
Qed.

Lemma row_entry_shape (key_cols : list str) (r : row) (k : pykey) (n : Z) :
  row_entry key_cols r = Ret (k, n) -> key_shape (length key_cols) k.
Proof.
  unfold row_entry, mbind, result_bind.
  destruct (key_tuple r key_cols) as [key|] eqn:Hkey; [|done].
  apply key_tuple_length in Hkey.
  destruct (row_get r (str_of "count")) as [field|]; [|done].
  destruct (py_int field) as [n'|]; [|done].
  intros [= <- _]. destruct key as [|c [|c' key]]; simpl in *; (done || lia).
Qed.

Lemma load_counts_inv (path : str) (key_cols : list str) (is_vocab : bool)
    (m : gmap pykey Z) :
  load_counts fs path key_cols is_vocab = Ret m ->
  ∃ f, fs path = Ret f ∧
       if is_vocab then load_vocab_lines (iter_lines f) ∅ = Ret m
       else load_csv_rows key_cols (csv_DictReader f) ∅ = Ret m.
Proof.
  unfold load_counts, mbind, result_bind.
  destruct (fs path) as [f|e]; [|by destruct e].
  intros Hload. exists f. split; [done|].
  destruct is_vocab.
  - destruct (load_vocab_lines (iter_lines f) ∅) as [m'|e]; [done|by destruct e].
  - destruct (load_csv_rows key_cols (csv_DictReader f) ∅) as [m'|e];
      [done|by destruct e].
Qed.

Lemma load_counts_csv_shape (path : str) (key_cols : list str)
    (m : gmap pykey Z) (k : pykey) :
  load_counts fs path key_cols false = Ret m ->
  k ∈ dom m -> key_shape (length key_cols) k.
Proof.
  intros (f & _ & Hload)%load_counts_inv [n Hk]%elem_of_dom.
  destruct (load_csv_rows_entries _ _ _ _ Hload) as [_ Hentries].
  destruct (Hentries k n Hk) as [Hempty|(r & _ & Hentry)]; [done|].
  by apply (row_entry_shape _ r k n).
Qed.

Lemma init_tables (p1 p2 p3 p4 p5 p6 : str) (c : SpellingCorrector) :
  init fs p1 p2 p3 p4 p5 p6 = Ret c ->
  load_counts fs p1 [str_of "unigram"] false = Ret (unigram_counts c) ∧
  load_counts fs p2 [str_of "bigram"] false = Ret (bigram_counts c) ∧
  load_counts fs p3 [str_of "original"; str_of "substituted"] false
    = Ret (sub_counts c) ∧
  load_counts fs p4 [str_of "prefix"; str_of "deleted"] false = Ret (del_counts c) ∧
  load_counts fs p5 [str_of "prefix"; str_of "added"] false = Ret (add_counts c) ∧
  load_counts fs p6 [str_of "word"] true = Ret (vocab c).
Proof.
  unfold init, mbind at 1 2 3 4 5 6, result_bind.
  repeat match goal with
  | |- context [load_counts fs ?q ?cols ?v] =>
      destruct (load_counts fs q cols v); [|done]
  end.
  by intros [= <-].
Qed.
End KeyShapes.

(** The keys of a constructed corrector have the shapes the lookups of the
    channel model use: the unigram and bigram tables are keyed by single
    cells, the substitution, deletion and insertion tables by pairs, and the
    vocabulary holds strings only. *)
Theorem init_key_shapes `{IO : PyIO} (fs : filesystem)
    (p1 p2 p3 p4 p5 p6 : str) (c : SpellingCorrector) :
  init fs p1 p2 p3 p4 p5 p6 = Ret c ->
  (∀ k, k ∈ dom (unigram_counts c) -> ∃ cell, k = KCell cell) ∧
  (∀ k, k ∈ dom (bigram_counts c) -> ∃ cell, k = KCell cell) ∧
  (∀ k, k ∈ dom (sub_counts c) -> ∃ a b, k = KTuple [a; b]) ∧
  (∀ k, k ∈ dom (del_counts c) -> ∃ a b, k = KTuple [a; b]) ∧
  (∀ k, k ∈ dom (add_counts c) -> ∃ a b, k = KTuple [a; b]) ∧
  (∀ k, k ∈ vocabulary c -> ∃ w, k = KStr w).
Proof.
  intros Hinit.
  destruct (init_tables fs _ _ _ _ _ _ c Hinit)
    as (Huni & Hbi & Hsub & Hdel & Hadd & Hvocab).
  assert (∀ k, key_shape 1 k -> ∃ cell, k = KCell cell) as Hone.
  { intros [cell|cs]; simpl; [by exists cell|]. by intros [_ ?]. }
  assert (∀ k, key_shape 2 k -> ∃ a b, k = KTuple [a; b]) as Htwo.
  { intros [cell|[|a [|b [|x cs]]]]; simpl; try done; try by intros [? _].
    by exists a, b. }
  repeat split; intros k Hk.
  - by apply Hone, (load_counts_csv_shape fs p1 [str_of "unigram"] _ k Huni).
  - by apply Hone, (load_counts_csv_shape fs p2 [str_of "bigram"] _ k Hbi).
  - by apply Htwo, (load_counts_csv_shape fs p3 [_; _] _ k Hsub).
  - by apply Htwo, (load_counts_csv_shape fs p4 [_; _] _ k Hdel).
  - by apply Htwo, (load_counts_csv_shape fs p5 [_; _] _ k Hadd).
  - apply init_fields in Hinit as (_ & Hvocabulary & _).
    rewrite Hvocabulary in Hk.
    apply load_counts_inv in Hvocab as (f & _ & Hload).
    destruct (load_vocab_keys _ _ _ Hload k Hk) as [Hempty|?]; [|done].
    by rewrite dom_empty_L in Hempty.
Qed.

Lemma init_key_shapes_witness :
  Demo.construct Demo.fs = Ret Demo.corrector ∧
  (∀ k, k ∈ dom (sub_counts Demo.corrector) -> ∃ a b, k = KTuple [a; b]) ∧
  (∀ k, k ∈ vocabulary Demo.corrector -> ∃ w, k = KStr w).
Proof.
  split; [exact construct_demo|].
  destruct (init_key_shapes Demo.fs _ _ _ _ _ _ Demo.corrector construct_demo)
    as (_ & _ & Hsub & _ & _ & Hvocab).
  by split.
Defined.

(** ** The test harness *)

Section HarnessFacts.
Context {RT : PyRuntime}.
Variable corrector : SpellingCorrector.

Lemma test_loop_returns (cases : list (str * str)) (is_failure_suite : bool) :
  (∀ typo expected, (typo, expected) ∈ cases ->
     ∃ r, correct corrector typo = Ret r) ->
  ∀ passed_count out,
    ∃ lines,
      test_loop corrector cases is_failure_suite passed_count out
      = (out ++ lines,
         Ret (passed_count + Z.of_nat (length (passing_cases corrector cases)))) ∧
      length lines = length cases.
Proof.
  induction cases as [|[typo expected] cases IH]; intros Hreturns passed_count out.
  - exists []. simpl. by rewrite app_nil_r, Z.add_0_r.
  - destruct (Hreturns typo expected) as [r Hr]; [by left|].
    simpl. rewrite Hr.
    edestruct IH as (lines & -> & Hlines).
    { intros t e Hin. apply (Hreturns t e). by right. }
    eexists (_ :: lines). split; [|by rewrite <- Hlines].
    rewrite <- app_assoc. simpl. do 2 f_equal.
    case_bool_decide; simpl; lia.
Qed.

Lemma test_loop_raises (pre post : list (str * str)) (typo expected : str)
    (e : exn) (is_failure_suite : bool) :
  (∀ t x, (t, x) ∈ pre -> ∃ r, correct corrector t = Ret r) ->
  correct corrector typo = Raise e ->
  ∀ passed_count out,
    ∃ lines,
      test_loop corrector (pre ++ (typo, expected) :: post) is_failure_suite
        passed_count out
      = (out ++ lines, Raise e) ∧
      length lines = length pre.
Proof.
  intros Hpre Hraise. induction pre as [|[t x] pre IH]; intros passed_count out.
  - exists []. simpl. by rewrite Hraise, app_nil_r.
  - destruct (Hpre t x) as [r Hr]; [by left|].
    simpl. rewrite Hr.
    edestruct IH as (lines & -> & Hlines).
    { intros t' x' Hin. apply (Hpre t' x'). by right. }
    eexists (_ :: lines). split; [|by rewrite <- Hlines].
    by rewrite <- app_assoc.
Qed.
End HarnessFacts.

(** When [correct] returns for every case, a suite prints one line for each
    case and then the summary, which reports the number of cases whose
    correction is the expected word out of the number of cases, whichever kind
    of suite it is. *)
Theorem run_test_suite_report `{RT : PyRuntime} (corrector : SpellingCorrector)
    (cases : list (str * str)) (is_failure_suite : bool) :
  (∀ typo expected, (typo, expected) ∈ cases ->
     ∃ r, correct corrector typo = Ret r) ->
  ∃ lines,
    run_test_suite corrector cases is_failure_suite
    = (lines ++ [summary_line
                   (Z.of_nat (length (passing_cases corrector cases)))
                   (Z.of_nat (length cases))],
       Ret tt) ∧
    length lines = length cases.
Proof.
  intros Hreturns. unfold run_test_suite.
  destruct (test_loop_returns corrector cases is_failure_suite Hreturns 0 [])
    as (lines & -> & Hlines).
  exists lines. by split.
Qed.

Lemma demo_correct_peace :
  correct Demo.corrector (str_of "peace") = Ret (str_of "peace").
Proof. vm_compute. reflexivity. Qed.

Lemma run_test_suite_report_witness :
  ∃ lines,
    run_test_suite Demo.corrector
      [(str_of "cak", str_of "cake"); (str_of "peace", str_of "peas")] false
    = (lines ++ [summary_line
                   (Z.of_nat (length (passing_cases Demo.corrector
                      [(str_of "cak", str_of "cake"); (str_of "peace", str_of "peas")])))
                   2],
       Ret tt) ∧
    length lines = 2%nat.
Proof.
  apply (run_test_suite_report Demo.corrector
           [(str_of "cak", str_of "cake"); (str_of "peace", str_of "peas")] false).
  intros typo expected [[= -> ->]|[= -> ->]%list_elem_of_singleton]%elem_of_cons.
  - exists (str_of "cake"). exact correct_cak.
  - exists (str_of "peace"). exact demo_correct_peace.
Defined.

(** When [correct] raises for a case, the suite ends with that exception
    after the lines of the cases before it: no line is printed for the case
    and no summary. *)
Theorem run_test_suite_raises `{RT : PyRuntime} (corrector : SpellingCorrector)
    (pre post : list (str * str)) (typo expected : str) (e : exn)
    (is_failure_suite : bool) :
  (∀ t x, (t, x) ∈ pre -> ∃ r, correct corrector t = Ret r) ->
  correct corrector typo = Raise e ->
  ∃ lines,
    run_test_suite corrector (pre ++ (typo, expected) :: post) is_failure_suite
    = (lines, Raise e) ∧
    length lines = length pre.
Proof.
  intros Hpre Hraise. unfold run_test_suite.
  destruct (test_loop_raises corrector pre post typo expected e is_failure_suite
              Hpre Hraise 0 []) as (lines & -> & Hlines).
  exists lines. by split.
Qed.

Lemma run_test_suite_raises_witness :
  ∃ lines,
    run_test_suite Demo.unseen_words
      [(str_of "ab", str_of "ab"); (str_of "ba", str_of "ab")] false
    = (lines, Raise ZeroDivisionError) ∧
    length lines = 1%nat.
Proof.
  apply (run_test_suite_raises Demo.unseen_words [(str_of "ab", str_of "ab")] []
           (str_of "ba") (str_of "ab") ZeroDivisionError false).
  - intros t x [= -> ->]%list_elem_of_singleton.
    exists (str_of "ab"). vm_compute. reflexivity.
  - exact correct_zero_word_total.
Defined.

(** ** The work of one correction *)

Lemma length_bind_le {A B : Type} (f : A -> list B) (c : nat) (l : list A) :
  (∀ x, (length (f x) <= c)%nat) -> (length (l ≫= f) <= length l * c)%nat.
Proof.
  intros Hf. induction l as [|x l IH]; [done|].
  rewrite bind_cons, length_app. specialize (Hf x). simpl. lia.
Qed.

Lemma length_splits (word : str) : length (splits word) = S (length word).
Proof. unfold splits. rewrite length_fmap, length_seq. lia. Qed.

Lemma length_letters {A : Type} (alpha : str) (f : char -> A) :
  length (c ← alpha; [f c]) = length alpha.
Proof.
  induction alpha as [|c alpha IH]; [done|].
  rewrite bind_cons, length_app, IH. done.
Qed.

Lemma size_list_to_set_le (l : list str) :
  (size (list_to_set l : gset str) <= length l)%nat.
Proof.
  induction l as [|x l IH].
  - by rewrite list_to_set_nil, size_empty.
  - rewrite list_to_set_cons, size_union_alt, size_singleton. simpl.
    assert (size (list_to_set l ∖ {[x]} : gset str) <= size (list_to_set l : gset str))%nat
      by (apply subseteq_size; intros y [Hy _]%elem_of_difference; done).
    lia.
Qed.

(** The candidate set of a word of [n] characters holds at most
    [(n + 1) * (2 * len(alphabet) + 2)] words: a correction scores a number
    of candidates linear in the length of the word. *)
Theorem generate_candidates_size (self : SpellingCorrector) (w : str) :
  (size (generate_candidates self w)
   <= (length w + 1) * (2 * length (alphabet self) + 2))%nat.
Proof.
  unfold generate_candidates.
  etrans; [apply subseteq_size; by intros y [_ Hy]%elem_of_filter|].
  unfold all_edits. etrans; [apply size_list_to_set_le|].
  rewrite !length_app.
  assert (length (deletes w) <= length (splits w) * 1)%nat as Hd.
  { apply length_bind_le. intros [L [|r R]]; simpl; lia. }
  assert (length (transposes w) <= length (splits w) * 1)%nat as Ht.
  { apply length_bind_le. intros [L [|r0 [|r1 R]]]; simpl; lia. }
  assert (length (replaces self w) <= length (splits w) * length (alphabet self))%nat
    as Hr.
  { apply length_bind_le. intros [L [|r R]]; [simpl; lia|].
    by rewrite length_letters. }
  assert (length (inserts self w) <= length (splits w) * length (alphabet self))%nat
    as Hi.
  { apply length_bind_le. intros [L R]. by rewrite length_letters. }
  rewrite length_splits in Hd, Ht, Hr, Hi. nia.
Qed.

(** The answer for a word and for its lowercase form are the same whenever
    the lowercase form is a known word or has a candidate; only the fallback
    to the input keeps the case of the caller. *)
Theorem correct_case_insensitive `{RT : PyRuntime} (self : SpellingCorrector)
    (w : str) :
  set_iter_law RT ->
  str_lower (str_lower w) = str_lower w ->
  KStr (str_lower w) ∈ vocabulary self ∨ generate_candidates self (str_lower w) ≠ ∅ ->
  correct self (str_lower w) = correct self w.
Proof.
  intros Hiter Hlower Hfound. unfold correct. rewrite Hlower.
  case_bool_decide as Hvocab; [done|].
  destruct Hfound as [?|Hcands]; [done|].
  rewrite !bool_decide_eq_false_2 by done.
  destruct (score_loop self (str_lower w)
              (set_iter (generate_candidates self (str_lower w))) [])
    as [[|entry d]|e] eqn:Hloop; [|done..].
  apply set_choose_L in Hcands as [c Hc].
  destruct (score_loop_entries self _ _ _ _ Hloop) as [_ Hkeys].
  { by intros k v []%elem_of_nil. }
  destruct (Hkeys c) as [v []%elem_of_nil]. left. by apply Hiter.
Qed.

Lemma correct_case_insensitive_witness :
  correct Demo.corrector (str_lower (str_of "Peace"))
  = correct Demo.corrector (str_of "Peace").
Proof.
  apply (correct_case_insensitive Demo.corrector (str_of "Peace")).
  - exact demo_set_iter.
  - reflexivity.
  - left. by_compute.
Defined.
